(** * Merkle root construction (merkle.js): a shallow embedding and its properties

    The development follows src/merkle.js function by function:
    [generateRandomHashes], [hashString], [combineHashes] and
    [buildMerkleRoot].  JavaScript values are a small inductive type, the
    effects of the program (console output, calls into the ethers library,
    consumption of randomness, thrown exceptions) are threaded through a
    state-and-exception monad, and the [while] loop of [buildMerkleRoot] is
    defined by well-founded recursion on the length of the current level.

    Modelling conventions.
    - A digest is a JavaScript string (the hex text ethers returns), an
      array of hashes is a [list string] (the JSDoc type [string[]]).
    - Numbers are integers ([Z]); [count] is a number of hashes.
    - The ethers functions [sha256], [keccak256], [concat], [toUtf8Bytes]
      and [randomBytes] are not part of the repository: they are the fields
      of the class [Ethers].  They are total functions here: the hashes
      handed to the program are taken to be well-formed digests, on which
      ethers does not throw.  Every call into ethers is recorded in the
      trace of the run, next to the console output.  What happens on a
      hash that is not a hex string, where ethers throws, is the subject
      of module [Strict].
    - Strings are sequences of one-byte characters; on text below
      character 128 (algorithm names, hex digests) [toUpperCase] and
      [slice0] are the JavaScript methods.
    - Strings are compared with [String.ltb], the lexicographic order on
      character codes, which is what [<] computes on JavaScript strings. *)

From Stdlib Require Import String Ascii List ZArith Lia Bool PeanoNat DecimalString.
From Equations Require Import Equations.
Import ListNotations.

Set Warnings "-register-all".

Local Open Scope string_scope.
Local Open Scope list_scope.

(** ** JavaScript values *)

Inductive value : Type :=
| VUndefined
| VNull
| VBoolean (b : bool)
| VNumber (n : Z)
| VString (s : string)
| VArray (elems : list string)
| VObject (props : list (string * value)).

(** [BytesLike] of ethers: a hex string or a byte array. *)
Inductive BytesLike : Type :=
| HexString (s : string)
| Uint8Array (bytes : list Byte.byte).

(** ToBoolean. *)
Definition truthy (v : value) : bool :=
  match v with
  | VUndefined | VNull => false
  | VBoolean b => b
  | VNumber n => negb (n =? 0)%Z
  | VString s => negb (s =? "")
  | VArray _ | VObject _ => true
  end.

Definition typeof (v : value) : string :=
  match v with
  | VUndefined => "undefined"
  | VBoolean _ => "boolean"
  | VNumber _ => "number"
  | VString _ => "string"
  | VNull | VArray _ | VObject _ => "object"
  end.

Definition isArray (v : value) : bool :=
  match v with VArray _ => true | _ => false end.

Fixpoint lookup (name : string) (props : list (string * value)) : value :=
  match props with
  | [] => VUndefined
  | (k, v) :: rest => if k =? name then v else lookup name rest
  end.

(** Property read [v.name].  It is only ever applied to a truthy [v] in
    merkle.js, so the read itself never throws. *)
Definition getProp (v : value) (name : string) : value :=
  match v with
  | VObject props => lookup name props
  | VArray elems =>
      if name =? "length" then VNumber (Z.of_nat (List.length elems)) else VUndefined
  | VString s =>
      if name =? "length" then VNumber (Z.of_nat (String.length s)) else VUndefined
  | _ => VUndefined
  end.

(** [v === 'literal'] and [v === 0]. *)
Definition strictEqString (v : value) (s : string) : bool :=
  match v with VString t => t =? s | _ => false end.

Definition strictEqNumber (v : value) (n : Z) : bool :=
  match v with VNumber m => (m =? n)%Z | _ => false end.

Notation "v === s" := (strictEqString v s) (at level 70, no associativity).

(** [a || b] on values. *)
Definition orElse (a b : value) : value := if truthy a then a else b.

(** ** Strings: the pieces of the template literals *)

Definition nl : string := String "010"%char EmptyString.
Definition dquote : string := String "034"%char EmptyString.

(** [s.slice(0, n)] for a string. *)
Definition slice0 (s : string) (n : nat) : string := substring 0 n s.

(** Number to text inside a template literal. *)
Definition showNat (n : nat) : string := NilEmpty.string_of_uint (Nat.to_uint n).
Definition showZ (n : Z) : string := NilEmpty.string_of_int (Z.to_int n).

(** ToString, as a template literal and [console.log] apply it. *)
Definition toStringValue (v : value) : string :=
  match v with
  | VUndefined => "undefined"
  | VNull => "null"
  | VBoolean true => "true"
  | VBoolean false => "false"
  | VNumber n => showZ n
  | VString s => s
  | VArray elems => String.concat "," elems
  | VObject _ => "[object Object]"
  end.

(** [toUpperCase] on text of characters below 128: the letters [a] to [z]
    change, nothing else does. *)
Definition upperChar (c : ascii) : ascii :=
  if (Ascii.leb "a" c && Ascii.leb c "z")%bool
  then ascii_of_nat (nat_of_ascii c - 32)
  else c.

Fixpoint toUpperCase (s : string) : string :=
  match s with
  | EmptyString => EmptyString
  | String c rest => String (upperChar c) (toUpperCase rest)
  end.

(** [Math.ceil(n / 2)] and [Math.floor(i / 2)] on array lengths and indices. *)
Definition ceilHalf (n : nat) : nat := (n + 1) / 2.
Definition floorHalf (i : nat) : nat := i / 2.

(** ** Exceptions *)

Inductive exception : Type :=
| Error (message : string)
| TypeError.

(** merkle.js:21 and merkle.js:48. *)
Definition UnsupportedAlgorithm : exception :=
  Error ("Unsupported algorithm. Use " ++ dquote ++ "sha256" ++ dquote
         ++ " or " ++ dquote ++ "keccak256" ++ dquote).

(** merkle.js:97. *)
Definition InvalidInput : exception :=
  Error "Invalid input. Provide result from generateRandomHashes or array of hashes.".

(** merkle.js:101. *)
Definition EmptyInput : exception :=
  Error "Cannot build Merkle tree from empty array".

Inductive Result (A : Type) : Type :=
| Ok (a : A)
| Throw (e : exception).
Arguments Ok {A} a.
Arguments Throw {A} e.

(** ** The ethers library *)

Class Ethers : Type := {
  ethers_sha256 : BytesLike -> string;
  ethers_keccak256 : BytesLike -> string;
  ethers_concat : list string -> string;
  ethers_toUtf8Bytes : string -> list Byte.byte;
  Entropy : Type;
  ethers_randomBytes : nat -> Entropy -> list Byte.byte * Entropy
}.

(** ** Effects: what a run does besides returning *)

Inductive event : Type :=
| ConsoleLog (line : string)
| CallSha256 (data : BytesLike)
| CallKeccak256 (data : BytesLike)
| CallConcat (datas : list string)
| CallToUtf8Bytes (text : string)
| CallRandomBytes (n : nat).

Definition isConsoleLog (e : event) : bool :=
  match e with ConsoleLog _ => true | _ => false end.

(** A digest is produced by a call to one of the two hash functions. *)
Definition isDigestCall (e : event) : bool :=
  match e with CallSha256 _ | CallKeccak256 _ => true | _ => false end.

(** Every invocation of [combineHashes] concatenates exactly once, and
    nothing else calls [concat]. *)
Definition isCombineCall (e : event) : bool :=
  match e with CallConcat _ => true | _ => false end.

Definition digestCalls (t : list event) : nat := List.length (filter isDigestCall t).
Definition combineCalls (t : list event) : nat := List.length (filter isCombineCall t).

Section Merkle.

Context {E : Ethers}.

Record World : Type := mkWorld {
  entropy : Entropy;
  trace : list event
}.

Definition M (A : Type) : Type := World -> Result A * World.

Definition ret {A} (a : A) : M A := fun w => (Ok a, w).

Definition bind {A B} (c : M A) (k : A -> M B) : M B :=
  fun w =>
    match c w with
    | (Ok a, w') => k a w'
    | (Throw e, w') => (Throw e, w')
    end.

Definition throw {A} (e : exception) : M A := fun w => (Throw e, w).

Definition emit (e : event) : M unit :=
  fun w => (Ok tt, mkWorld (entropy w) (trace w ++ [e])).

Notation "x <- c1 ;; c2" := (bind c1 (fun x => c2))
  (at level 61, c1 at next level, right associativity).
Notation "c1 ;; c2" := (bind c1 (fun _ => c2))
  (at level 61, right associativity).

Definition console_log (line : string) : M unit := emit (ConsoleLog line).

Definition sha256 (data : BytesLike) : M string :=
  emit (CallSha256 data) ;; ret (ethers_sha256 data).

Definition keccak256 (data : BytesLike) : M string :=
  emit (CallKeccak256 data) ;; ret (ethers_keccak256 data).

Definition concat (datas : list string) : M string :=
  emit (CallConcat datas) ;; ret (ethers_concat datas).

Definition toUtf8Bytes (text : string) : M (list Byte.byte) :=
  emit (CallToUtf8Bytes text) ;; ret (ethers_toUtf8Bytes text).

Definition randomBytes (n : nat) : M (list Byte.byte) :=
  fun w =>
    let '(bytes, g) := ethers_randomBytes n (entropy w) in
    (Ok bytes, mkWorld g (trace w ++ [CallRandomBytes n])).

(** [array.forEach((x, i) => f(x, i))], started at index [i]. *)
Fixpoint forEach {A} (f : A -> nat -> M unit) (l : list A) (i : nat) : M unit :=
  match l with
  | [] => ret tt
  | x :: rest => f x i ;; forEach f rest (S i)
  end.

(** ** merkle.js:64-77 *)
Definition combineHashes (left right : string) (algorithm : value) : M string :=
  let '(first, second) :=
    if (left <? right)%string then (left, right) else (right, left) in
  console_log ("    Combining: " ++ slice0 first 10 ++ "... + "
                ++ slice0 second 10 ++ "...") ;;
  combined <- concat [first; second] ;;
  hash <- (if algorithm === "sha256"
           then sha256 (HexString combined)
           else keccak256 (HexString combined)) ;;
  console_log ("    Result:    " ++ slice0 hash 10 ++ "...") ;;
  ret hash.

(** ** merkle.js:9-31 *)

(** A parameter with a default: the default applies to [undefined] only. *)
Definition defaultParam (v d : value) : value :=
  match v with VUndefined => d | _ => v end.

(** The [for] loop of lines 12-25, with [n] iterations left to run. *)
Fixpoint generateLoop (n : nat) (algorithm : value) (hashes : list string)
  : M (list string) :=
  match n with
  | O => ret hashes
  | S n' =>
      randomData <- randomBytes 32 ;;
      hash <- (if algorithm === "sha256" then sha256 (Uint8Array randomData)
               else if algorithm === "keccak256" then keccak256 (Uint8Array randomData)
               else throw UnsupportedAlgorithm) ;;
      generateLoop n' algorithm (hashes ++ [hash])
  end.

(** The object literal [{ hashes, algorithm }]. *)
Definition leafObject (hashes : list string) (algorithm : value) : value :=
  VObject [("hashes", VArray hashes); ("algorithm", algorithm)].

Definition generateRandomHashes (count : Z) (algorithm : value) : M value :=
  let algorithm := defaultParam algorithm (VString "keccak256") in
  hashes <- generateLoop (Z.to_nat count) algorithm [] ;;
  ret (leafObject hashes algorithm).

(** ** merkle.js:39-55 *)
Definition hashString (text : string) (algorithm : value) : M value :=
  let algorithm := defaultParam algorithm (VString "keccak256") in
  bytes <- toUtf8Bytes text ;;
  hash <- (if algorithm === "sha256" then sha256 (Uint8Array bytes)
           else if algorithm === "keccak256" then keccak256 (Uint8Array bytes)
           else throw UnsupportedAlgorithm) ;;
  ret (VObject [("hash", VString hash); ("algorithm", algorithm)]).

(** ** merkle.js:85-169 *)

(** The [for] loop of lines 130-148.  [rest] is the part of [currentLevel]
    from index [i] on, [nextLevel] the array built so far. *)
Fixpoint forPairs (rest : list string) (i : nat) (algorithm : value)
  (nextLevel : list string) : M (list string) :=
  match rest with
  | [] => ret nextLevel
  | [single] =>
      console_log "  Single node (promoted):" ;;
      console_log ("    " ++ single) ;;
      console_log "" ;;
      ret (nextLevel ++ [single])
  | l :: r :: rest' =>
      console_log ("  Pair " ++ showNat (floorHalf i) ++ ":") ;;
      console_log ("    Left:  " ++ l) ;;
      console_log ("    Right: " ++ r) ;;
      parentHash <- combineHashes l r algorithm ;;
      console_log "" ;;
      forPairs rest' (i + 2) algorithm (nextLevel ++ [parentHash])
  end.

(** One iteration of the [while] loop, lines 123-157. *)
Definition whileBody (currentLevel : list string) (levelNumber : nat)
  (algorithm : value) : M (list string) :=
  console_log ("LEVEL " ++ showNat levelNumber ++ ":") ;;
  console_log ("  Processing " ++ showNat (List.length currentLevel) ++ " nodes -> "
                ++ showNat (ceilHalf (List.length currentLevel)) ++ " parent nodes") ;;
  console_log "" ;;
  nextLevel <- forPairs currentLevel 0 algorithm [] ;;
  console_log ("  Level " ++ showNat levelNumber ++ " Result:") ;;
  forEach (fun hash i => console_log ("    [" ++ showNat i ++ "] " ++ hash))
          nextLevel 0 ;;
  console_log (nl ++ "----------------------------------------" ++ nl) ;;
  ret nextLevel.

(** The [while] loop of lines 122-159, on its two variables: it runs as
    long as the current level has more than one node, and returns the last
    level and the last level number.  The recursion is on the length of the
    level, which every iteration makes smaller. *)
Equations? whileLoop (currentLevel : list string) (levelNumber : nat)
  (algorithm : value) (w : World) : Result (list string * nat) * World
  by wf (List.length currentLevel) lt :=
  whileLoop currentLevel levelNumber algorithm w
    with Logic.inspect (1 <? List.length currentLevel)%nat := {
    | exist _ false _ => (Ok (currentLevel, levelNumber), w)
    | exist _ true Hgt
        with Logic.inspect (whileBody currentLevel levelNumber algorithm w) := {
        | exist _ (Ok nextLevel, w') Hbody =>
            whileLoop nextLevel (S levelNumber) algorithm w'
        | exist _ (Throw e, w') _ => (Throw e, w') } }.
Proof.
  apply Nat.ltb_lt in Hgt.
  assert (Hfor : forall n rest, List.length rest <= n ->
            forall i acc w0 next w1,
              forPairs rest i algorithm acc w0 = (Ok next, w1) ->
              List.length next = List.length acc + ceilHalf (List.length rest)).
  { induction n as [|n IH]; intros rest Hn i acc w0 next w1 Hrun.
    - destruct rest; [|simpl in Hn; lia].
      cbv in Hrun. inversion Hrun; subst. cbn. lia.
    - destruct rest as [|l [|r rest']].
      + cbv in Hrun. inversion Hrun; subst. cbn. lia.
      + cbn in Hrun. inversion Hrun; subst.
        rewrite length_app. reflexivity.
      + cbn [forPairs] in Hrun.
        unfold bind, console_log, emit, combineHashes, concat, sha256,
          keccak256, ret in Hrun.
        destruct (l <? r)%string; destruct (algorithm === "sha256");
          cbn in Hrun;
          apply IH in Hrun; try (simpl in Hn; lia);
          rewrite Hrun, length_app; cbn [List.length];
          unfold ceilHalf;
          replace (S (S (List.length rest')) + 1) with (List.length rest' + 1 + 1 * 2) by lia;
          rewrite Nat.div_add by lia; lia. }
  assert (Hinv : forall A B (c : M A) (k : A -> M B) w0 r w1,
            bind c k w0 = (Ok r, w1) ->
            exists a w2, c w0 = (Ok a, w2) /\ k a w2 = (Ok r, w1)).
  { intros A B c k w0 r w1 Hb. unfold bind in Hb.
    destruct (c w0) as [[a|e] w2]; [eauto | discriminate]. }
  unfold whileBody in Hbody.
  do 3 (apply Hinv in Hbody; destruct Hbody as (? & ? & _ & Hbody)).
  apply Hinv in Hbody. destruct Hbody as (next & w1 & Hrun & Hbody).
  repeat (apply Hinv in Hbody; destruct Hbody as (? & ? & _ & Hbody)).
  inversion Hbody; subst.
  apply Hfor with (n := List.length currentLevel) in Hrun; [|lia].
  rewrite Hrun. cbn [List.length]. unfold ceilHalf.
  assert (H2 : (List.length currentLevel + 1) / 2 * 2 <= List.length currentLevel + 1)
    by (rewrite Nat.mul_comm; apply Nat.Div0.mul_div_le).
  lia.
Qed.

(** [algorithm.toUpperCase()]: a method of strings only. *)
Definition call_toUpperCase (v : value) : M string :=
  match v with
  | VString s => ret (toUpperCase s)
  | _ => throw TypeError
  end.

(** [leaves.forEach] and [[...leaves]] need an array. *)
Definition arrayOf (v : value) : M (list string) :=
  match v with
  | VArray elems => ret elems
  | _ => throw TypeError
  end.

(** [a[i]]: [undefined] out of range. *)
Definition index (a : list string) (i : nat) : value :=
  match nth_error a i with
  | Some s => VString s
  | None => VUndefined
  end.

Definition rule : string := "========================================".

(** Lines 86-98: which leaves, which algorithm. *)
Definition resolveInput (leavesInput algorithmOverride : value) : M (value * value) :=
  if (truthy leavesInput && (typeof leavesInput =? "object")
      && truthy (getProp leavesInput "hashes")
      && truthy (getProp leavesInput "algorithm"))%bool
  then ret (getProp leavesInput "hashes", getProp leavesInput "algorithm")
  else if isArray leavesInput
  then ret (leavesInput, orElse algorithmOverride (VString "keccak256"))
  else throw InvalidInput.

(** Lines 100-168, on the resolved [leaves] and [algorithm]. *)
Definition buildTree (leaves algorithm : value) : M value :=
  (if (negb (truthy leaves) || strictEqNumber (getProp leaves "length") 0)%bool
   then throw EmptyInput else ret tt) ;;
  console_log (nl ++ rule) ;;
  console_log "BUILDING MERKLE TREE" ;;
  console_log rule ;;
  upper <- call_toUpperCase algorithm ;;
  console_log ("Algorithm: " ++ upper) ;;
  console_log ("Total leaves: " ++ toStringValue (getProp leaves "length")) ;;
  console_log (rule ++ nl) ;;
  console_log "LEVEL 0 (Leaves):" ;;
  elems <- arrayOf leaves ;;
  forEach (fun leaf i => console_log ("  [" ++ showNat i ++ "] " ++ leaf)) elems 0 ;;
  console_log "" ;;
  state <- whileLoop elems 1 algorithm ;;
  let currentLevel := fst state in
  let root := index currentLevel 0 in
  console_log rule ;;
  console_log "MERKLE ROOT (Final):" ;;
  console_log (toStringValue root) ;;
  console_log (rule ++ nl) ;;
  ret root.

Definition buildMerkleRoot (leavesInput algorithmOverride : value) : M value :=
  input <- resolveInput leavesInput algorithmOverride ;;
  buildTree (fst input) (snd input).

(** ** Runs

    [extend w evs] is the world after the events [evs], and [runs c w a evs]
    says that [c], started in [w], returns [a] after emitting exactly
    [evs], without touching the random source. *)
Definition extend (w : World) (evs : list event) : World :=
  mkWorld (entropy w) (trace w ++ evs).

Definition runs {A} (c : M A) (w : World) (a : A) (evs : list event) : Prop :=
  c w = (Ok a, extend w evs).

(** A trace of console output only. *)
Definition onlyLogs (evs : list event) : Prop := forallb isConsoleLog evs = true.

(** What a run returns or throws. *)
Definition resultOf {A} (c : M A) (w : World) : Result A := fst (c w).

(** [c] raises nothing but exceptions in [P], and when it raises, all it
    has done is console output. *)
Definition failsOnly {A} (P : exception -> Prop) (c : M A) : Prop :=
  forall w e w', c w = (Throw e, w') ->
    P e /\ exists evs, w' = extend w evs /\ onlyLogs evs.

(** The result of [c] is the same in every world. *)
Definition worldIndependent {A} (c : M A) : Prop :=
  exists r, forall w, resultOf c w = r.

(** The exceptions [buildMerkleRoot] can raise. *)
Definition buildError (e : exception) : Prop :=
  e = InvalidInput \/ e = EmptyInput \/ e = TypeError.


Definition supported (algorithm : string) : Prop :=
  algorithm = "sha256" \/ algorithm = "keccak256".

(** The value [combineHashes] returns: the digest of the two hashes,
    smaller first. *)
Definition combined (left right : string) (algorithm : value) : string :=
  let '(first, second) :=
    if (left <? right)%string then (left, right) else (right, left) in
  let data := HexString (ethers_concat [first; second]) in
  if algorithm === "sha256" then ethers_sha256 data else ethers_keccak256 data.

(** The four events of one combination. *)
Definition combineTrace (left right : string) (algorithm : value) : list event :=
  let '(first, second) :=
    if (left <? right)%string then (left, right) else (right, left) in
  let data := HexString (ethers_concat [first; second]) in
  [ConsoleLog ("    Combining: " ++ slice0 first 10 ++ "... + "
               ++ slice0 second 10 ++ "...");
   CallConcat [first; second];
   if algorithm === "sha256" then CallSha256 data else CallKeccak256 data;
   ConsoleLog ("    Result:    " ++ slice0 (combined left right algorithm) 10 ++ "...")].

(** The level [forPairs] builds from [level]. *)
Fixpoint paired (algorithm : value) (level : list string) : list string :=
  match level with
  | [] => []
  | [single] => [single]
  | l :: r :: rest => combined l r algorithm :: paired algorithm rest
  end.

(** ** Notions for the properties of whole runs and whole trees *)

Definition isSha256Call (e : event) : bool :=
  match e with CallSha256 _ => true | _ => false end.

Definition isKeccak256Call (e : event) : bool :=
  match e with CallKeccak256 _ => true | _ => false end.

Definition isRandomCall (e : event) : bool :=
  match e with CallRandomBytes _ => true | _ => false end.

Definition isUtf8Call (e : event) : bool :=
  match e with CallToUtf8Bytes _ => true | _ => false end.

Definition sha256Calls (t : list event) : nat := List.length (filter isSha256Call t).
Definition keccak256Calls (t : list event) : nat := List.length (filter isKeccak256Call t).
Definition randomCalls (t : list event) : nat := List.length (filter isRandomCall t).
Definition utf8Calls (t : list event) : nat := List.length (filter isUtf8Call t).

(** The events a tree built under [algorithm] may emit: console output,
    concatenations, and calls of the one hash function that [algorithm]
    selects in [combineHashes]. *)
Definition allowed (algorithm : value) (e : event) : bool :=
  match e with
  | ConsoleLog _ | CallConcat _ => true
  | CallSha256 _ => algorithm === "sha256"
  | CallKeccak256 _ => negb (algorithm === "sha256")
  | CallToUtf8Bytes _ | CallRandomBytes _ => false
  end.

(** Whatever [c] returns or throws, it has emitted events in [P] only and
    has left the random source alone. *)
Definition emitsOnly {A} (P : event -> bool) (c : M A) : Prop :=
  forall w r w', c w = (r, w') ->
    exists evs, w' = extend w evs /\ forallb P evs = true.

(** The level the loop ends with: one reduction for each of the
    [log2_up n] iterations. *)
Definition reduced (algorithm : value) (leaves : list string) : list string :=
  Nat.iter (Nat.log2_up (List.length leaves)) (paired algorithm) leaves.

(** Two levels that differ only by the order inside sibling pairs. *)
Inductive siblingSwap : list string -> list string -> Prop :=
| swap_nil : siblingSwap [] []
| swap_single (x : string) : siblingSwap [x] [x]
| swap_keep (x y : string) (l l' : list string) :
    siblingSwap l l' -> siblingSwap (x :: y :: l) (x :: y :: l')
| swap_flip (x y : string) (l l' : list string) :
    siblingSwap l l' -> siblingSwap (x :: y :: l) (y :: x :: l').

(** The hash function the leaf source uses under a supported [algorithm],
    and the event of its call. *)
Definition digestOf (algorithm : value) (data : BytesLike) : string :=
  if algorithm === "sha256" then ethers_sha256 data else ethers_keccak256 data.

Definition digestCallOf (algorithm : value) (data : BytesLike) : event :=
  if algorithm === "sha256" then CallSha256 data else CallKeccak256 data.

(** The blocks that [n] successive calls of [randomBytes(32)] draw from the
    random source, and the source after them. *)
Fixpoint draw (n : nat) (g : Entropy) : list (list Byte.byte) * Entropy :=
  match n with
  | O => ([], g)
  | S n' =>
      let '(block, g1) := ethers_randomBytes 32 g in
      let '(blocks, g2) := draw n' g1 in
      (block :: blocks, g2)
  end.

(** An algorithm argument the leaf source accepts: omitted, or one of the
    two names. *)
Definition accepted (algorithm : value) : Prop :=
  algorithm = VUndefined \/
  algorithm = VString "sha256" \/ algorithm = VString "keccak256".

(** The first test of [buildMerkleRoot], line 89. *)
Definition carriesLeaves (leavesInput : value) : bool :=
  (truthy leavesInput && (typeof leavesInput =? "object")
   && truthy (getProp leavesInput "hashes")
   && truthy (getProp leavesInput "algorithm"))%bool.

End Merkle.

(** ** The program on arbitrary strings

    ethers checks what it is handed as [BytesLike]: a string passes when it
    is [0x] followed by pairs of hex digits, in either case, and the call
    throws a TypeError otherwise.  Module [Strict] is the tree reducer with
    this check in [concat], [sha256] and [keccak256]; the text of
    [combineHashes] and [buildMerkleRoot] is the same as above.  On hashes
    that are well-formed digests the two agree, and the properties above
    are stated for such hashes; what the code does with a malformed hash is
    stated on [Strict]. *)

Definition isHexDigit (c : ascii) : bool :=
  ((Ascii.leb "0" c && Ascii.leb c "9")
   || (Ascii.leb "a" c && Ascii.leb c "f")
   || (Ascii.leb "A" c && Ascii.leb c "F"))%bool.

Fixpoint hexPairs (s : string) : bool :=
  match s with
  | EmptyString => true
  | String c1 (String c2 rest) => (isHexDigit c1 && isHexDigit c2 && hexPairs rest)%bool
  | String _ EmptyString => false
  end.

Definition isHexString (s : string) : bool :=
  match s with
  | String c0 (String cx rest) =>
      (Ascii.eqb c0 "0" && (Ascii.eqb cx "x" || Ascii.eqb cx "X") && hexPairs rest)%bool
  | _ => false
  end.

(** A string of characters below 128, on which [toUpperCase] above is the
    upper-casing of JavaScript. *)
Fixpoint asciiText (s : string) : bool :=
  match s with
  | EmptyString => true
  | String c rest => ((nat_of_ascii c <? 128)%nat && asciiText rest)%bool
  end.

Module Strict.

Section Model.

Context {E : Ethers}.

Notation "x <- c1 ;; c2" := (bind c1 (fun x => c2))
  (at level 61, c1 at next level, right associativity).
Notation "c1 ;; c2" := (bind c1 (fun _ => c2))
  (at level 61, right associativity).

Definition accepts (data : BytesLike) : bool :=
  match data with
  | HexString s => isHexString s
  | Uint8Array _ => true
  end.

Definition sha256 (data : BytesLike) : M string :=
  emit (CallSha256 data) ;;
  if accepts data then ret (ethers_sha256 data) else throw TypeError.

Definition keccak256 (data : BytesLike) : M string :=
  emit (CallKeccak256 data) ;;
  if accepts data then ret (ethers_keccak256 data) else throw TypeError.

Definition concat (datas : list string) : M string :=
  emit (CallConcat datas) ;;
  if forallb isHexString datas then ret (ethers_concat datas) else throw TypeError.

(** merkle.js:64-77 *)
Definition combineHashes (left right : string) (algorithm : value) : M string :=
  let '(first, second) :=
    if (left <? right)%string then (left, right) else (right, left) in
  console_log ("    Combining: " ++ slice0 first 10 ++ "... + "
                ++ slice0 second 10 ++ "...") ;;
  combined <- concat [first; second] ;;
  hash <- (if algorithm === "sha256"
           then sha256 (HexString combined)
           else keccak256 (HexString combined)) ;;
  console_log ("    Result:    " ++ slice0 hash 10 ++ "...") ;;
  ret hash.

(** merkle.js:130-148 *)
Fixpoint forPairs (rest : list string) (i : nat) (algorithm : value)
  (nextLevel : list string) : M (list string) :=
  match rest with
  | [] => ret nextLevel
  | [single] =>
      console_log "  Single node (promoted):" ;;
      console_log ("    " ++ single) ;;
      console_log "" ;;
      ret (nextLevel ++ [single])
  | l :: r :: rest' =>
      console_log ("  Pair " ++ showNat (floorHalf i) ++ ":") ;;
      console_log ("    Left:  " ++ l) ;;
      console_log ("    Right: " ++ r) ;;
      parentHash <- combineHashes l r algorithm ;;
      console_log "" ;;
      forPairs rest' (i + 2) algorithm (nextLevel ++ [parentHash])
  end.

(** merkle.js:123-157 *)
Definition whileBody (currentLevel : list string) (levelNumber : nat)
  (algorithm : value) : M (list string) :=
  console_log ("LEVEL " ++ showNat levelNumber ++ ":") ;;
  console_log ("  Processing " ++ showNat (List.length currentLevel) ++ " nodes -> "
                ++ showNat (ceilHalf (List.length currentLevel)) ++ " parent nodes") ;;
  console_log "" ;;
  nextLevel <- forPairs currentLevel 0 algorithm [] ;;
  console_log ("  Level " ++ showNat levelNumber ++ " Result:") ;;
  forEach (fun hash i => console_log ("    [" ++ showNat i ++ "] " ++ hash))
          nextLevel 0 ;;
  console_log (nl ++ "----------------------------------------" ++ nl) ;;
  ret nextLevel.

(** merkle.js:122-159 *)
Equations? whileLoop (currentLevel : list string) (levelNumber : nat)
  (algorithm : value) (w : World) : Result (list string * nat) * World
  by wf (List.length currentLevel) lt :=
  whileLoop currentLevel levelNumber algorithm w
    with Logic.inspect (1 <? List.length currentLevel)%nat := {
    | exist _ false _ => (Ok (currentLevel, levelNumber), w)
    | exist _ true Hgt
        with Logic.inspect (whileBody currentLevel levelNumber algorithm w) := {
        | exist _ (Ok nextLevel, w') Hbody =>
            whileLoop nextLevel (S levelNumber) algorithm w'
        | exist _ (Throw e, w') _ => (Throw e, w') } }.
Proof.
  apply Nat.ltb_lt in Hgt.
  assert (Hinv : forall A B (c : M A) (k : A -> M B) w0 r w1,
            bind c k w0 = (Ok r, w1) ->
            exists a w2, c w0 = (Ok a, w2) /\ k a w2 = (Ok r, w1)).
  { intros A B c k w0 r w1 Hb. unfold bind in Hb.
    destruct (c w0) as [[a|e] w2]; [eauto | discriminate]. }
  assert (Hfor : forall n rest, List.length rest <= n ->
            forall i acc w0 next w1,
              forPairs rest i algorithm acc w0 = (Ok next, w1) ->
              List.length next = List.length acc + ceilHalf (List.length rest)).
  { induction n as [|n IH]; intros rest Hn i acc w0 next w1 Hrun.
    - destruct rest; [|simpl in Hn; lia].
      cbv in Hrun. inversion Hrun; subst. cbn. lia.
    - destruct rest as [|l [|r rest']].
      + cbv in Hrun. inversion Hrun; subst. cbn. lia.
      + cbn [forPairs] in Hrun.
        do 3 (apply Hinv in Hrun; destruct Hrun as (? & ? & _ & Hrun)).
        inversion Hrun; subst. rewrite length_app. reflexivity.
      + cbn [forPairs] in Hrun.
        do 3 (apply Hinv in Hrun; destruct Hrun as (? & ? & _ & Hrun)).
        apply Hinv in Hrun. destruct Hrun as (parent & ? & _ & Hrun).
        apply Hinv in Hrun. destruct Hrun as (? & ? & _ & Hrun).
        apply IH in Hrun; [|simpl in Hn; lia].
        rewrite Hrun, length_app. cbn [List.length]. unfold ceilHalf.
        replace (S (S (List.length rest')) + 1) with (List.length rest' + 1 + 1 * 2) by lia.
        rewrite Nat.div_add by lia. lia. }
  unfold whileBody in Hbody.
  do 3 (apply Hinv in Hbody; destruct Hbody as (? & ? & _ & Hbody)).
  apply Hinv in Hbody. destruct Hbody as (next & w1 & Hrun & Hbody).
  repeat (apply Hinv in Hbody; destruct Hbody as (? & ? & _ & Hbody)).
  inversion Hbody; subst.
  apply Hfor with (n := List.length currentLevel) in Hrun; [|lia].
  rewrite Hrun. cbn [List.length]. unfold ceilHalf.
  assert (H2 : (List.length currentLevel + 1) / 2 * 2 <= List.length currentLevel + 1)
    by (rewrite Nat.mul_comm; apply Nat.Div0.mul_div_le).
  lia.
Qed.

(** merkle.js:100-168 *)
Definition buildTree (leaves algorithm : value) : M value :=
  (if (negb (truthy leaves) || strictEqNumber (getProp leaves "length") 0)%bool
   then throw EmptyInput else ret tt) ;;
  console_log (nl ++ rule) ;;
  console_log "BUILDING MERKLE TREE" ;;
  console_log rule ;;
  upper <- call_toUpperCase algorithm ;;
  console_log ("Algorithm: " ++ upper) ;;
  console_log ("Total leaves: " ++ toStringValue (getProp leaves "length")) ;;
  console_log (rule ++ nl) ;;
  console_log "LEVEL 0 (Leaves):" ;;
  elems <- arrayOf leaves ;;
  forEach (fun leaf i => console_log ("  [" ++ showNat i ++ "] " ++ leaf)) elems 0 ;;
  console_log "" ;;
  state <- whileLoop elems 1 algorithm ;;
  let currentLevel := fst state in
  let root := index currentLevel 0 in
  console_log rule ;;
  console_log "MERKLE ROOT (Final):" ;;
  console_log (toStringValue root) ;;
  console_log (rule ++ nl) ;;
  ret root.

(** merkle.js:85-169 *)
Definition buildMerkleRoot (leavesInput algorithmOverride : value) : M value :=
  input <- resolveInput leavesInput algorithmOverride ;;
  buildTree (fst input) (snd input).

(** What ethers returns is itself [BytesLike]: the digest of a hex string
    and the concatenation of hex strings are hex strings. *)
Definition hexDigests : Prop :=
  (forall s, isHexString s = true -> isHexString (ethers_sha256 (HexString s)) = true) /\
  (forall s, isHexString s = true -> isHexString (ethers_keccak256 (HexString s)) = true) /\
  (forall datas, forallb isHexString datas = true ->
                 isHexString (ethers_concat datas) = true).

(** The hashes handed over, as a bare array or as the [hashes] of an
    object, are all hex strings. *)
Definition wellFormedLeaves (leaves : value) : bool :=
  match leaves with
  | VArray hashes => forallb isHexString hashes
  | _ => true
  end.

Definition wellFormedInput (leavesInput : value) : bool :=
  (wellFormedLeaves leavesInput && wellFormedLeaves (getProp leavesInput "hashes"))%bool.

End Model.

End Strict.

(** ** A transparent instance of the library

    [Tagged] implements the [Ethers] interface with functions that compute:
    a digest is its input behind a two-digit tag, [01] for sha256 and [02]
    for keccak256, and the random source is a counter.  The model runs on
    it by evaluation. *)
Module Tagged.

Definition hexDigit (n : nat) : string :=
  substring n 1 "0123456789abcdef".

Definition hexByte (b : Byte.byte) : string :=
  let n := Byte.to_nat b in (hexDigit (n / 16) ++ hexDigit (n mod 16))%string.

(** The hex digits of a [BytesLike], without the [0x]. *)
Definition payload (data : BytesLike) : string :=
  match data with
  | HexString s => substring 2 (String.length s - 2) s
  | Uint8Array bytes => String.concat "" (map hexByte bytes)
  end.

Definition byteOf (n : nat) : Byte.byte :=
  match Byte.of_nat (n mod 256) with
  | Some b => b
  | None => Byte.x00
  end.

#[local] Instance ethers : Ethers := {|
  ethers_sha256 := fun data => ("0x01" ++ payload data)%string;
  ethers_keccak256 := fun data => ("0x02" ++ payload data)%string;
  ethers_concat := fun datas =>
    ("0x" ++ String.concat "" (map (fun d => payload (HexString d)) datas))%string;
  ethers_toUtf8Bytes := list_byte_of_string;
  Entropy := nat;
  ethers_randomBytes := fun n seed => (repeat (byteOf seed) n, S seed)
|}.

Definition world0 : @World ethers := mkWorld (E := ethers) 0 [].

End Tagged.

(** * Properties *)

Section Properties.

Context {E : Ethers}.

Notation "x <- c1 ;; c2" := (bind c1 (fun x => c2))
  (at level 61, c1 at next level, right associativity).
Notation "c1 ;; c2" := (bind c1 (fun _ => c2))
  (at level 61, right associativity).

(** ** Worlds and runs *)

Lemma extend_nil (w : World) : extend w [] = w.
Proof. destruct w as [g t]. unfold extend. cbn. now rewrite app_nil_r. Qed.

Lemma extend_extend (w : World) (e1 e2 : list event) :
  extend (extend w e1) e2 = extend w (e1 ++ e2).
Proof. unfold extend. cbn. now rewrite app_assoc. Qed.

Lemma trace_extend (w : World) (evs : list event) :
  trace (extend w evs) = trace w ++ evs.
Proof. reflexivity. Qed.

Lemma runs_ret {A} (a : A) (w : World) : runs (ret a) w a [].
Proof. unfold runs, ret. now rewrite extend_nil. Qed.

Lemma runs_emit (e : event) (w : World) : runs (emit e) w tt [e].
Proof. reflexivity. Qed.

Lemma runs_log (line : string) (w : World) :
  runs (console_log line) w tt [ConsoleLog line].
Proof. reflexivity. Qed.

Lemma runs_bind {A B} (c : M A) (k : A -> M B) w a e1 b e2 :
  runs c w a e1 -> runs (k a) (extend w e1) b e2 ->
  runs (x <- c ;; k x) w b (e1 ++ e2).
Proof.
  unfold runs, bind. intros -> ->. now rewrite extend_extend.
Qed.

Lemma runs_value {A} (c : M A) w a evs : runs c w a evs -> fst (c w) = Ok a.
Proof. unfold runs. now intros ->. Qed.

Lemma combineCalls_app (t1 t2 : list event) :
  combineCalls (t1 ++ t2) = combineCalls t1 + combineCalls t2.
Proof. unfold combineCalls. now rewrite filter_app, length_app. Qed.

Lemma digestCalls_app (t1 t2 : list event) :
  digestCalls (t1 ++ t2) = digestCalls t1 + digestCalls t2.
Proof. unfold digestCalls. now rewrite filter_app, length_app. Qed.

(** ** combineHashes *)

Lemma combineHashes_runs left right algorithm w :
  runs (combineHashes left right algorithm) w
       (combined left right algorithm) (combineTrace left right algorithm).
Proof.
  unfold runs, combineHashes, combineTrace, combined.
  destruct (left <? right)%string; destruct (algorithm === "sha256");
    cbv [bind console_log concat sha256 keccak256 emit ret extend entropy trace];
    rewrite <- ?app_assoc; reflexivity.
Qed.

Lemma combineTrace_calls left right algorithm :
  combineCalls (combineTrace left right algorithm) = 1 /\
  digestCalls (combineTrace left right algorithm) = 1.
Proof.
  unfold combineTrace.
  destruct (left <? right)%string; destruct (algorithm === "sha256"); split; reflexivity.
Qed.

(** The order on strings is total: two strings neither of which is below
    the other are equal. *)
Lemma ltb_total (a b : string) :
  (a <? b)%string = false -> (b <? a)%string = false -> a = b.
Proof.
  unfold String.ltb. rewrite (String.compare_antisym a b).
  destruct (b ?= a)%string eqn:Hc; cbn; try discriminate.
  intros _ _. symmetry. now apply String.compare_eq_iff.
Qed.

Lemma ltb_asym (a b : string) :
  (a <? b)%string = true -> (b <? a)%string = false.
Proof.
  unfold String.ltb. rewrite (String.compare_antisym a b).
  destruct (b ?= a)%string; cbn; congruence.
Qed.

(** C7. [combineHashes] does not depend on the order of its two hashes:
    for all strings [a] and [b], equal or not, and every algorithm value,
    the call with [a, b] and the call with [b, a] return the same digest
    and have the same effects.  The reason is that the two hashes are put
    in lexicographic order first: what is concatenated and hashed is
    [first] then [second], the two hashes with [second] not below
    [first]. *)
Theorem combineHashes_order_independent (a b : string) (algorithm : value) (w : World) :
  combineHashes a b algorithm w = combineHashes b a algorithm w /\
  exists first second evs,
    ((first, second) = (a, b) \/ (first, second) = (b, a)) /\
    (second <? first)%string = false /\
    combineHashes a b algorithm w
      = (Ok (if algorithm === "sha256"
             then ethers_sha256 (HexString (ethers_concat [first; second]))
             else ethers_keccak256 (HexString (ethers_concat [first; second]))),
         extend w evs) /\
    filter isCombineCall evs = [CallConcat [first; second]].
Proof.
  split.
  - unfold combineHashes.
    destruct (a <? b)%string eqn:Hab.
    + now rewrite (ltb_asym _ _ Hab).
    + destruct (b <? a)%string eqn:Hba; [reflexivity|].
      now rewrite (ltb_total _ _ Hab Hba).
  - rewrite combineHashes_runs. unfold combined, combineTrace.
    destruct (a <? b)%string eqn:Hab.
    + exists a, b. eexists. split; [now left|]. split; [now apply ltb_asym|].
      split; [reflexivity|]. now destruct (algorithm === "sha256").
    + exists b, a. eexists. split; [now right|]. split; [exact Hab|].
      split; [reflexivity|]. now destruct (algorithm === "sha256").
Qed.

Lemma onlyLogs_app (t1 t2 : list event) :
  onlyLogs t1 -> onlyLogs t2 -> onlyLogs (t1 ++ t2).
Proof. unfold onlyLogs. intros H1 H2. now rewrite forallb_app, H1, H2. Qed.

Lemma onlyLogs_calls (t : list event) :
  onlyLogs t -> combineCalls t = 0 /\ digestCalls t = 0.
Proof.
  unfold onlyLogs, combineCalls, digestCalls.
  induction t as [|e t IH]; [now split|].
  cbn [forallb filter]. intros H. apply andb_prop in H. destruct H as [He Ht].
  destruct e; try discriminate. cbn. now apply IH.
Qed.

(** ** The loops of buildMerkleRoot *)

Lemma pair_ind {A} (P : list A -> Prop) :
  P [] -> (forall x, P [x]) -> (forall x y l, P l -> P (x :: y :: l)) ->
  forall l, P l.
Proof.
  intros H0 H1 H2.
  assert (Hboth : forall l, P l /\ forall x, P (x :: l)).
  { induction l as [|y l [IH IH']]; split; auto. }
  intros l. apply Hboth.
Qed.

Lemma paired_length algorithm (level : list string) :
  List.length (paired algorithm level) = ceilHalf (List.length level).
Proof.
  induction level as [| x | x y l IH] using pair_ind; try reflexivity.
  cbn [paired List.length]. rewrite IH. unfold ceilHalf.
  replace (S (S (List.length l)) + 1) with (List.length l + 1 + 1 * 2) by lia.
  rewrite Nat.div_add by lia. lia.
Qed.

Lemma ceilHalf_lt (n : nat) : 2 <= n -> ceilHalf n < n.
Proof.
  intros Hn. unfold ceilHalf.
  assert (H : 2 * ((n + 1) / 2) <= n + 1) by apply Nat.Div0.mul_div_le.
  lia.
Qed.

Lemma ceilHalf_pos (n : nat) : 1 <= n -> 1 <= ceilHalf n.
Proof.
  intros Hn. unfold ceilHalf.
  replace (n + 1) with (n - 1 + 1 * 2) by lia.
  rewrite Nat.div_add by lia. lia.
Qed.

Lemma half_succ_succ (n : nat) : S (S n) / 2 = S (n / 2).
Proof.
  replace (S (S n)) with (n + 1 * 2) by lia.
  rewrite Nat.div_add by lia. lia.
Qed.

Lemma forPairs_runs algorithm (rest : list string) :
  forall i nextLevel, exists evs,
    (forall w, runs (forPairs rest i algorithm nextLevel) w
                    (nextLevel ++ paired algorithm rest) evs) /\
    combineCalls evs = List.length rest / 2 /\
    digestCalls evs = List.length rest / 2.
Proof.
  induction rest as [| x | l r rest IH] using pair_ind; intros i nextLevel.
  - exists []. cbn [forPairs paired]. rewrite app_nil_r.
    split; [intros w; apply runs_ret | split; reflexivity].
  - eexists. split; [intros w|split].
    + cbn [forPairs paired].
      eapply runs_bind; [apply runs_log|].
      eapply runs_bind; [apply runs_log|].
      eapply runs_bind; [apply runs_log|].
      apply runs_ret.
    + reflexivity.
    + reflexivity.
  - destruct (IH (i + 2) (nextLevel ++ [combined l r algorithm]))
      as (evs & Hrun & Hc & Hd).
    eexists. split; [intros w|split].
    + cbn [forPairs paired].
      eapply runs_bind; [apply runs_log|].
      eapply runs_bind; [apply runs_log|].
      eapply runs_bind; [apply runs_log|].
      eapply runs_bind; [apply combineHashes_runs|].
      eapply runs_bind; [apply runs_log|].
      replace (nextLevel ++ combined l r algorithm :: paired algorithm rest)
        with ((nextLevel ++ [combined l r algorithm]) ++ paired algorithm rest)
        by (now rewrite <- app_assoc).
      apply Hrun.
    + cbn [List.length]. rewrite half_succ_succ.
      rewrite !combineCalls_app, Hc.
      destruct (combineTrace_calls l r algorithm) as [-> _]. reflexivity.
    + cbn [List.length]. rewrite half_succ_succ.
      rewrite !digestCalls_app, Hd.
      destruct (combineTrace_calls l r algorithm) as [_ ->]. reflexivity.
Qed.

Lemma forEach_log_runs (f : string -> nat -> string) (l : list string) :
  forall i, exists evs,
    (forall w, runs (forEach (fun x j => console_log (f x j)) l i) w tt evs) /\
    onlyLogs evs.
Proof.
  induction l as [|x l IH]; intros i.
  - exists []. split; [intros w; apply runs_ret | reflexivity].
  - destruct (IH (S i)) as (evs & Hrun & Hlogs).
    exists ([ConsoleLog (f x i)] ++ evs). split.
    + intros w. cbn [forEach]. eapply runs_bind; [apply runs_log | apply Hrun].
    + apply onlyLogs_app; [reflexivity | exact Hlogs].
Qed.

Lemma whileBody_runs (currentLevel : list string) levelNumber algorithm :
  exists evs,
    (forall w, runs (whileBody currentLevel levelNumber algorithm) w
                    (paired algorithm currentLevel) evs) /\
    combineCalls evs = List.length currentLevel / 2 /\
    digestCalls evs = List.length currentLevel / 2.
Proof.
  destruct (forPairs_runs algorithm currentLevel 0 []) as (e1 & Hrun & Hc & Hd).
  destruct (forEach_log_runs (fun hash i => ("    [" ++ showNat i ++ "] " ++ hash)%string)
              (paired algorithm currentLevel) 0) as (e2 & Hlog & Hquiet).
  apply onlyLogs_calls in Hquiet. destruct Hquiet as [Hc2 Hd2].
  eexists. split; [intros w|split].
  - unfold whileBody.
    eapply runs_bind; [apply runs_log|].
    eapply runs_bind; [apply runs_log|].
    eapply runs_bind; [apply runs_log|].
    eapply runs_bind; [apply Hrun|].
    eapply runs_bind; [apply runs_log|].
    eapply runs_bind; [apply Hlog|].
    eapply runs_bind; [apply runs_log|].
    apply runs_ret.
  - rewrite !combineCalls_app, Hc, Hc2. cbn. lia.
  - rewrite !digestCalls_app, Hd, Hd2. cbn. lia.
Qed.

Lemma whileLoop_step (currentLevel : list string) levelNumber algorithm w :
  whileLoop currentLevel levelNumber algorithm w =
  if (1 <? List.length currentLevel)%nat
  then match whileBody currentLevel levelNumber algorithm w with
       | (Ok nextLevel, w') => whileLoop nextLevel (S levelNumber) algorithm w'
       | (Throw e, w') => (Throw e, w')
       end
  else (Ok (currentLevel, levelNumber), w).
Proof.
  funelim (whileLoop currentLevel levelNumber algorithm w);
    match goal with H : (1 <? _)%nat = _ |- _ => rewrite H end;
    try match goal with H : whileBody _ _ _ _ = _ |- _ => rewrite H end;
    reflexivity.
Qed.

Lemma half_ceilHalf (n : nat) : n / 2 + ceilHalf n = n.
Proof.
  unfold ceilHalf.
  assert (H := Nat.div_mod_eq n 2).
  assert (H' := Nat.div_mod_eq (n + 1) 2).
  assert (Hm : n mod 2 < 2) by (apply Nat.mod_upper_bound; lia).
  assert (Hm' : (n + 1) mod 2 < 2) by (apply Nat.mod_upper_bound; lia).
  assert (Hs : (n + 1) mod 2 = 1 - n mod 2).
  { rewrite Nat.Div0.add_mod.
    destruct (n mod 2) as [|[|k]] eqn:Hk; try lia; reflexivity. }
  lia.
Qed.

Lemma log2_up_ceilHalf (n : nat) :
  2 <= n -> Nat.log2_up n = S (Nat.log2_up (ceilHalf n)).
Proof.
  intros Hn.
  assert (H2 : 2 * ceilHalf n <= n + 1) by (unfold ceilHalf; apply Nat.Div0.mul_div_le).
  assert (H3 : n <= 2 * ceilHalf n).
  { unfold ceilHalf. assert (H := Nat.div_mod_eq (n + 1) 2).
    assert (Hm : (n + 1) mod 2 < 2) by (apply Nat.mod_upper_bound; lia). lia. }
  apply Nat.log2_up_unique; [lia|].
  cbn [pred].
  destruct (Nat.eq_dec (ceilHalf n) 1) as [H1|H1].
  - rewrite H1. cbn. lia.
  - assert (Hm : 1 < ceilHalf n) by lia.
    destruct (Nat.log2_up_spec _ Hm) as [Hlo Hhi].
    rewrite Nat.pow_succ_r'.
    assert (Hc : 0 < Nat.log2_up (ceilHalf n)) by (apply Nat.log2_up_pos; lia).
    replace (Nat.log2_up (ceilHalf n)) with (S (pred (Nat.log2_up (ceilHalf n)))) at 1 by lia.
    rewrite Nat.pow_succ_r'. lia.
Qed.

(** The whole loop: [k] iterations lead from [currentLevel] to the level
    the loop returns. *)
Lemma whileLoop_runs algorithm (currentLevel : list string) :
  forall levelNumber, exists k evs,
    (forall w, runs (whileLoop currentLevel levelNumber algorithm) w
                    (Nat.iter k (paired algorithm) currentLevel, levelNumber + k) evs) /\
    List.length (Nat.iter k (paired algorithm) currentLevel)
      = Nat.min 1 (List.length currentLevel) /\
    k <= List.length currentLevel - 1 /\
    combineCalls evs = List.length currentLevel - Nat.min 1 (List.length currentLevel) /\
    digestCalls evs = List.length currentLevel - Nat.min 1 (List.length currentLevel) /\
    k = Nat.log2_up (List.length currentLevel).
Proof.
  remember (List.length currentLevel) as n eqn:Hn.
  revert currentLevel Hn.
  induction n as [n IH] using lt_wf_ind. intros currentLevel Hn levelNumber.
  destruct (1 <? List.length currentLevel)%nat eqn:Hgt.
  - apply Nat.ltb_lt in Hgt.
    destruct (whileBody_runs currentLevel levelNumber algorithm)
      as (e1 & Hbody & Hc1 & Hd1).
    assert (Hlen := paired_length algorithm currentLevel).
    assert (Hlt := ceilHalf_lt (List.length currentLevel) ltac:(lia)).
    assert (Hpos := ceilHalf_pos (List.length currentLevel) ltac:(lia)).
    destruct (IH (ceilHalf (List.length currentLevel)) ltac:(lia)
                 (paired algorithm currentLevel) ltac:(lia) (S levelNumber))
      as (k & e2 & Hloop & Hfinal & Hk & Hc2 & Hd2 & Hlog).
    exists (S k), (e1 ++ e2). repeat split.
    + intros w. unfold runs. rewrite whileLoop_step.
      assert (Hgt' : (1 <? List.length currentLevel)%nat = true)
        by now apply Nat.ltb_lt.
      rewrite Hgt', Hbody, Hloop, extend_extend, Nat.iter_succ_r.
      now replace (levelNumber + S k) with (S levelNumber + k) by lia.
    + rewrite Nat.iter_succ_r, Hfinal. lia.
    + lia.
    + rewrite combineCalls_app, Hc1, Hc2.
      assert (Hh := half_ceilHalf (List.length currentLevel)). lia.
    + rewrite digestCalls_app, Hd1, Hd2.
      assert (Hh := half_ceilHalf (List.length currentLevel)). lia.
    + rewrite Hn, log2_up_ceilHalf, Hlog by lia. reflexivity.
  - apply Nat.ltb_ge in Hgt.
    exists 0, []. repeat split.
    + intros w. unfold runs. rewrite whileLoop_step.
      assert (Hgt' : (1 <? List.length currentLevel)%nat = false)
        by now apply Nat.ltb_ge.
      rewrite Hgt', extend_nil, Nat.add_0_r. reflexivity.
    + cbv [Nat.iter nat_rect]. lia.
    + lia.
    + change (combineCalls []) with 0. lia.
    + change (digestCalls []) with 0. lia.
    + destruct n as [|[|n]]; try reflexivity. lia.
Qed.

Lemma whileLoop_done (currentLevel : list string) levelNumber algorithm w :
  List.length currentLevel <= 1 ->
  whileLoop currentLevel levelNumber algorithm w = (Ok (currentLevel, levelNumber), w).
Proof.
  intros H. rewrite whileLoop_step.
  now replace (1 <? List.length currentLevel)%nat with false
    by (symmetry; now apply Nat.ltb_ge).
Qed.

Lemma whileLoop_more (currentLevel : list string) levelNumber algorithm :
  1 < List.length currentLevel ->
  exists evs,
    (forall w, whileLoop currentLevel levelNumber algorithm w
               = whileLoop (paired algorithm currentLevel) (S levelNumber)
                           algorithm (extend w evs)) /\
    combineCalls evs = List.length currentLevel / 2 /\
    digestCalls evs = List.length currentLevel / 2.
Proof.
  intros H.
  destruct (whileBody_runs currentLevel levelNumber algorithm) as (evs & Hb & Hc & Hd).
  exists evs. split; [|now split].
  intros w. rewrite whileLoop_step.
  replace (1 <? List.length currentLevel)%nat with true
    by (symmetry; now apply Nat.ltb_lt).
  now rewrite Hb.
Qed.

(** ** Failure and world independence, compositionally *)

Lemma bind_ret_l {A B} (a : A) (k : A -> M B) w : (x <- ret a ;; k x) w = k a w.
Proof. reflexivity. Qed.

Lemma failsOnly_throw {A} (P : exception -> Prop) e :
  P e -> failsOnly P (throw (A := A) e).
Proof.
  intros HP w e' w' H. inversion H; subst. split; [exact HP|].
  exists []. now rewrite extend_nil.
Qed.

Lemma failsOnly_runs {A} (P : exception -> Prop) (c : M A) :
  (forall w, exists a evs, runs c w a evs) -> failsOnly P c.
Proof.
  intros H w e w' Hthrow. destruct (H w) as (a & evs & Hrun).
  unfold runs in Hrun. congruence.
Qed.

Lemma failsOnly_bind_throw {A B} (P : exception -> Prop) e (k : A -> M B) :
  P e -> failsOnly P (x <- throw e ;; k x).
Proof. intros HP. now apply (failsOnly_throw (A := B)). Qed.

Lemma failsOnly_bind {A B} (P : exception -> Prop) (c : M A) (k : A -> M B) a evs :
  (forall w, runs c w a evs) -> onlyLogs evs ->
  failsOnly P (k a) -> failsOnly P (x <- c ;; k x).
Proof.
  intros Hc Hlogs Hk w e w' H. unfold bind in H. rewrite Hc in H.
  apply Hk in H. destruct H as (HP & evs' & -> & Hlogs').
  split; [exact HP|]. exists (evs ++ evs'). split.
  - apply extend_extend.
  - now apply onlyLogs_app.
Qed.

Lemma failsOnly_log {B} (P : exception -> Prop) line (k : unit -> M B) :
  failsOnly P (k tt) -> failsOnly P (x <- console_log line ;; k x).
Proof.
  apply failsOnly_bind with (evs := [ConsoleLog line]);
    [intros w; apply runs_log | reflexivity].
Qed.

Lemma worldIndependent_runs {A} (c : M A) a :
  (forall w, exists evs, runs c w a evs) -> worldIndependent c.
Proof.
  intros H. exists (Ok a). intros w. destruct (H w) as (evs & Hrun).
  unfold resultOf. now rewrite Hrun.
Qed.

Lemma worldIndependent_throw {A} e : worldIndependent (throw (A := A) e).
Proof. now exists (Throw e). Qed.

Lemma worldIndependent_bind {A B} (c : M A) (k : A -> M B) :
  worldIndependent c -> (forall a, worldIndependent (k a)) ->
  worldIndependent (x <- c ;; k x).
Proof.
  intros [r Hr] Hk. destruct r as [a|e].
  - destruct (Hk a) as [r' Hr']. exists r'. intros w.
    specialize (Hr w). unfold resultOf, bind in *.
    destruct (c w) as [[a'|e'] w1]; cbn in Hr; inversion Hr; subst. apply Hr'.
  - exists (Throw e). intros w.
    specialize (Hr w). unfold resultOf, bind in *.
    destruct (c w) as [[a'|e'] w1]; cbn in Hr; inversion Hr; subst. reflexivity.
Qed.

(** ** buildTree and buildMerkleRoot *)

Lemma nonempty_check (elems : list string) :
  elems <> [] ->
  (negb (truthy (VArray elems))
   || strictEqNumber (getProp (VArray elems) "length") 0)%bool = false.
Proof. destruct elems; [congruence | reflexivity]. Qed.

(** From the loop to the root: whatever the loop returns on a non-empty
    array, [buildTree] returns its first element, and it combines and
    hashes only inside the loop. *)
Lemma buildTree_of_loop (elems : list string) (alg : string) final n evs :
  elems <> [] ->
  (forall w, runs (whileLoop elems 1 (VString alg)) w (final, n) evs) ->
  exists evs',
    (forall w, runs (buildTree (VArray elems) (VString alg)) w (index final 0) evs') /\
    combineCalls evs' = combineCalls evs /\
    digestCalls evs' = digestCalls evs.
Proof.
  intros Hne Hloop.
  destruct (forEach_log_runs (fun leaf i => ("  [" ++ showNat i ++ "] " ++ leaf)%string)
              elems 0) as (e1 & Hlog & Hquiet).
  apply onlyLogs_calls in Hquiet. destruct Hquiet as [Hc1 Hd1].
  eexists. split; [intros w|split].
  - unfold buildTree. rewrite (nonempty_check elems Hne).
    eapply runs_bind; [apply runs_ret|].
    do 3 (eapply runs_bind; [apply runs_log|]).
    eapply runs_bind; [apply runs_ret|].
    do 4 (eapply runs_bind; [apply runs_log|]).
    eapply runs_bind; [apply runs_ret|].
    eapply runs_bind; [apply Hlog|].
    eapply runs_bind; [apply runs_log|].
    eapply runs_bind; [apply Hloop|].
    do 4 (eapply runs_bind; [apply runs_log|]).
    apply runs_ret.
  - rewrite !combineCalls_app, Hc1. cbn. lia.
  - rewrite !digestCalls_app, Hd1. cbn. lia.
Qed.

Lemma buildTree_runs (elems : list string) (alg : string) :
  elems <> [] ->
  exists k evs,
    (forall w, runs (buildTree (VArray elems) (VString alg)) w
                    (index (Nat.iter k (paired (VString alg)) elems) 0) evs) /\
    List.length (Nat.iter k (paired (VString alg)) elems) = 1 /\
    k <= List.length elems - 1 /\
    combineCalls evs = List.length elems - 1 /\
    digestCalls evs = List.length elems - 1 /\
    k = Nat.log2_up (List.length elems).
Proof.
  intros Hne.
  destruct (whileLoop_runs (VString alg) elems 1)
    as (k & evs & Hloop & Hlen & Hk & Hc & Hd & Hlog).
  destruct (buildTree_of_loop elems alg _ _ _ Hne Hloop) as (evs' & Hrun & Hc' & Hd').
  assert (Hpos : 1 <= List.length elems) by (destruct elems; [congruence | cbn; lia]).
  exists k, evs'. repeat split; try assumption; lia.
Qed.

Lemma buildTree_failsOnly (leaves algorithm : value) :
  failsOnly buildError (buildTree leaves algorithm).
Proof.
  unfold buildTree.
  destruct (negb (truthy leaves) || strictEqNumber (getProp leaves "length") 0)%bool eqn:Hc.
  { apply failsOnly_bind_throw. right; left; reflexivity. }
  apply failsOnly_bind with (a := tt) (evs := []);
    [intros w; apply runs_ret | reflexivity |].
  do 3 apply failsOnly_log.
  destruct algorithm as [| | b | z | alg | a | o];
    try (apply failsOnly_bind_throw; right; right; reflexivity).
  apply failsOnly_bind with (a := toUpperCase alg) (evs := []);
    [intros w; apply runs_ret | reflexivity |].
  do 4 apply failsOnly_log.
  destruct leaves as [| | b | z | t | elems | o];
    try (apply failsOnly_bind_throw; right; right; reflexivity).
  assert (Hne : elems <> []) by (intros ->; discriminate).
  apply failsOnly_bind with (a := elems) (evs := []);
    [intros w; apply runs_ret | reflexivity |].
  destruct (forEach_log_runs (fun leaf i => ("  [" ++ showNat i ++ "] " ++ leaf)%string)
              elems 0) as (e1 & Hlog & Hquiet).
  apply failsOnly_bind with (a := tt) (evs := e1); [exact Hlog | exact Hquiet |].
  apply failsOnly_log.
  apply failsOnly_runs. intros w.
  destruct (whileLoop_runs (VString alg) elems 1) as (k & evs & Hloop & _).
  do 2 eexists.
  eapply runs_bind; [apply Hloop|].
  do 4 (eapply runs_bind; [apply runs_log|]).
  apply runs_ret.
Qed.

Lemma worldIndependent_log {B} line (k : unit -> M B) :
  worldIndependent (k tt) -> worldIndependent (x <- console_log line ;; k x).
Proof.
  intros H. apply worldIndependent_bind.
  - apply worldIndependent_runs with (a := tt). intros w. eexists. apply runs_log.
  - now intros [].
Qed.

Lemma worldIndependent_ret {A} (a : A) : worldIndependent (ret a).
Proof. now exists (Ok a). Qed.

Lemma buildTree_worldIndependent (leaves algorithm : value) :
  worldIndependent (buildTree leaves algorithm).
Proof.
  unfold buildTree.
  apply worldIndependent_bind.
  { destruct (_ || _)%bool; [apply worldIndependent_throw | apply worldIndependent_ret]. }
  intros _. do 3 apply worldIndependent_log.
  apply worldIndependent_bind.
  { destruct algorithm; try apply worldIndependent_throw. apply worldIndependent_ret. }
  intros upper. do 4 apply worldIndependent_log.
  apply worldIndependent_bind.
  { destruct leaves; try apply worldIndependent_throw. apply worldIndependent_ret. }
  intros elems.
  apply worldIndependent_bind.
  { destruct (forEach_log_runs (fun leaf i => ("  [" ++ showNat i ++ "] " ++ leaf)%string)
                elems 0) as (e1 & Hlog & _).
    apply worldIndependent_runs with (a := tt). intros w. exists e1. apply Hlog. }
  intros _. apply worldIndependent_log.
  apply worldIndependent_bind.
  { destruct (whileLoop_runs algorithm elems 1) as (k & evs & Hloop & _).
    eapply worldIndependent_runs. intros w. exists evs. apply Hloop. }
  intros state. do 4 apply worldIndependent_log. apply worldIndependent_ret.
Qed.

Lemma resolveInput_cases (leavesInput algorithmOverride : value) :
  (exists input, forall w, resolveInput leavesInput algorithmOverride w = (Ok input, w)) \/
  (forall w, resolveInput leavesInput algorithmOverride w = (Throw InvalidInput, w)).
Proof.
  unfold resolveInput.
  destruct (_ && _)%bool; [left; eexists; reflexivity|].
  destruct (isArray leavesInput); [left; eexists; reflexivity | right; reflexivity].
Qed.

Lemma buildMerkleRoot_failsOnly (leavesInput algorithmOverride : value) :
  failsOnly buildError (buildMerkleRoot leavesInput algorithmOverride).
Proof.
  unfold buildMerkleRoot.
  destruct (resolveInput_cases leavesInput algorithmOverride) as [[input Hok] | Hthrow].
  - apply failsOnly_bind with (a := input) (evs := []).
    + intros w. unfold runs. now rewrite Hok, extend_nil.
    + reflexivity.
    + apply buildTree_failsOnly.
  - intros w e w' H. unfold bind in H. rewrite Hthrow in H. inversion H; subst.
    split; [now left|]. exists []. now rewrite extend_nil.
Qed.

Lemma buildMerkleRoot_worldIndependent (leavesInput algorithmOverride : value) :
  worldIndependent (buildMerkleRoot leavesInput algorithmOverride).
Proof.
  unfold buildMerkleRoot. apply worldIndependent_bind.
  - destruct (resolveInput_cases leavesInput algorithmOverride) as [[input Hok] | Hthrow].
    + exists (Ok input). intros w. unfold resultOf. now rewrite Hok.
    + exists (Throw InvalidInput). intros w. unfold resultOf. now rewrite Hthrow.
  - intros input. apply buildTree_worldIndependent.
Qed.

(** The two ways to hand over leaves. *)
Lemma buildMerkleRoot_leafObject (hashes : list string) (alg : string) override w :
  alg <> "" ->
  buildMerkleRoot (leafObject hashes (VString alg)) override w
  = buildTree (VArray hashes) (VString alg) w.
Proof.
  intros Halg. unfold buildMerkleRoot, resolveInput, leafObject.
  apply String.eqb_neq in Halg.
  cbn [truthy typeof getProp lookup String.eqb Ascii.eqb Bool.eqb andb].
  rewrite Halg. reflexivity.
Qed.

Lemma buildMerkleRoot_array (hashes : list string) override w :
  buildMerkleRoot (VArray hashes) override w
  = buildTree (VArray hashes) (orElse override (VString "keccak256")) w.
Proof. reflexivity. Qed.

Lemma index_singleton (level : list string) :
  List.length level = 1 -> exists d, level = [d] /\ index level 0 = VString d.
Proof.
  destruct level as [|d [|? ?]]; try discriminate. intros _. now exists d.
Qed.

Lemma paired_nth algorithm (level : list string) :
  forall k x y,
    nth_error level (2 * k) = Some x -> nth_error level (2 * k + 1) = Some y ->
    nth_error (paired algorithm level) k = Some (combined x y algorithm).
Proof.
  induction level as [| x0 | x0 y0 l IH] using pair_ind; intros k x y Hx Hy.
  - destruct k; discriminate.
  - replace (2 * k + 1) with (S (2 * k)) in Hy by lia.
    cbn [nth_error] in Hy. destruct (2 * k); cbn in Hy; discriminate.
  - destruct k as [|k].
    + cbn in Hx, Hy. inversion Hx; inversion Hy; subst. reflexivity.
    + replace (2 * S k) with (S (S (2 * k))) in Hx by lia.
      replace (2 * S k + 1) with (S (S (2 * k + 1))) in Hy by lia.
      cbn [nth_error] in Hx, Hy. cbn [paired nth_error]. now apply IH.
Qed.

Lemma paired_odd algorithm (level : list string) :
  Nat.odd (List.length level) = true ->
  exists front d,
    level = front ++ [d] /\ paired algorithm level = paired algorithm front ++ [d].
Proof.
  induction level as [| x | x y l IH] using pair_ind; intros Hodd.
  - discriminate.
  - now exists [], x.
  - destruct (IH Hodd) as (front & d & -> & Hp).
    exists (x :: y :: front), d. split; [reflexivity|].
    cbn [paired]. now rewrite Hp.
Qed.

(** The root of a small tree, by running the loop. *)
Lemma root_of_leaves (hashes : list string) (alg : string) override :
  hashes <> [] -> alg <> "" ->
  forall w,
    resultOf (buildMerkleRoot (leafObject hashes (VString alg)) override) w
    = Ok (index (Nat.iter (Nat.log2_up (List.length hashes))
                          (paired (VString alg)) hashes) 0).
Proof.
  intros Hne Halg w.
  destruct (buildTree_runs hashes alg Hne) as (k & evs & Hrun & _ & _ & _ & _ & ->).
  unfold resultOf. rewrite buildMerkleRoot_leafObject by exact Halg.
  now rewrite Hrun.
Qed.

(** ** The tree reducer *)

(** C6. For a Leaf Set that holds exactly one digest [d], under any
    non-empty algorithm name, [buildMerkleRoot] returns [d] itself, and the
    run consists of console output only: it makes no call to [concat],
    hence no invocation of [combineHashes], and no call to a hash
    function. *)
Theorem single_leaf_is_root (d alg : string) (override : value) (w : World) :
  alg <> "" ->
  exists evs,
    buildMerkleRoot (leafObject [d] (VString alg)) override w
      = (Ok (VString d), extend w evs) /\
    combineCalls evs = 0 /\ digestCalls evs = 0.
Proof.
  intros Halg.
  destruct (buildTree_of_loop [d] alg [d] 1 []) as (evs & Hrun & Hc & Hd).
  - discriminate.
  - intros w0. unfold runs. rewrite whileLoop_done by (cbn; lia).
    now rewrite extend_nil.
  - exists evs. rewrite buildMerkleRoot_leafObject by exact Halg.
    split; [apply Hrun | split; assumption].
Qed.

(** C9. [buildMerkleRoot] is deterministic.  Its result, a root or an
    exception, depends on its arguments only and not on the world it runs
    in; and for a non-empty Leaf Set two invocations with the same digests
    in the same order and the same algorithm return the same root digest. *)
Theorem buildMerkleRoot_deterministic
  (hashes : list string) (alg : string) (leavesInput override o1 o2 : value)
  (w1 w2 : World) :
  hashes <> [] -> alg <> "" ->
  resultOf (buildMerkleRoot leavesInput override) w1
    = resultOf (buildMerkleRoot leavesInput override) w2 /\
  exists root,
    resultOf (buildMerkleRoot (leafObject hashes (VString alg)) o1) w1
      = Ok (VString root) /\
    resultOf (buildMerkleRoot (leafObject hashes (VString alg)) o2) w2
      = Ok (VString root).
Proof.
  intros Hne Halg. split.
  - destruct (buildMerkleRoot_worldIndependent leavesInput override) as [r Hr].
    now rewrite !Hr.
  - destruct (buildTree_runs hashes alg Hne) as (k & evs & Hrun & Hlen & _).
    destruct (index_singleton _ Hlen) as (root & _ & Hroot).
    exists root. unfold resultOf.
    rewrite !buildMerkleRoot_leafObject by exact Halg.
    rewrite !Hrun, Hroot. now split.
Qed.

(** C10. The level-reduction loop terminates on every non-empty leaf list.
    One iteration turns a level of length [n >= 2] into a level of length
    [ceil(n/2)], which is smaller than [n]; and the loop returns a level of
    length 1 after [k] iterations, where [k] is the base-2 logarithm of the
    number of leaves, rounded up, and is smaller than that number. *)
Theorem whileLoop_terminates
  (leaves : list string) (levelNumber : nat) (algorithm : value) (w : World) :
  leaves <> [] ->
  (forall level n w0, 2 <= List.length level ->
     exists nextLevel evs,
       whileBody level n algorithm w0 = (Ok nextLevel, extend w0 evs) /\
       List.length nextLevel = ceilHalf (List.length level) /\
       List.length nextLevel < List.length level) /\
  exists k final evs,
    whileLoop leaves levelNumber algorithm w
      = (Ok (final, levelNumber + k), extend w evs) /\
    List.length final = 1 /\
    k = Nat.log2_up (List.length leaves) /\ k < List.length leaves.
Proof.
  intros Hne. split.
  - intros level n w0 Hlen.
    destruct (whileBody_runs level n algorithm) as (evs & Hrun & _).
    exists (paired algorithm level), evs. split; [apply Hrun|].
    rewrite paired_length. split; [reflexivity | now apply ceilHalf_lt].
  - destruct (whileLoop_runs algorithm leaves levelNumber)
      as (k & evs & Hloop & Hlen & Hk & _ & _ & Hlog).
    assert (Hpos : 1 <= List.length leaves) by (destruct leaves; [congruence | cbn; lia]).
    exists k, (Nat.iter k (paired algorithm) leaves), evs.
    split; [apply Hloop|]. split; [lia|]. split; [exact Hlog | lia].
Qed.

(** C4. In a reduction step on a level of odd length, the last digest [d]
    of the level is the last element of the next level, as it is: the
    elements before it are the combined pairs of the digests before [d],
    and the step calls a hash function once for each of those pairs and
    never for [d].  In particular the root of a Leaf Set [[a, b, c]] is
    what [combineHashes] returns on [c] and the result of [combineHashes]
    on [a] and [b]. *)
Theorem odd_node_promoted_unchanged
  (level : list string) (levelNumber : nat) (algorithm override : value)
  (a b c alg : string) (w : World) :
  Nat.odd (List.length level) = true -> alg <> "" ->
  (exists front d nextFront evs,
     level = front ++ [d] /\
     whileBody level levelNumber algorithm w = (Ok (nextFront ++ [d]), extend w evs) /\
     (forall w1, resultOf (forPairs front 0 algorithm []) w1 = Ok nextFront) /\
     combineCalls evs = List.length nextFront /\
     digestCalls evs = List.length nextFront) /\
  (forall w1,
     resultOf (buildMerkleRoot (leafObject [a; b; c] (VString alg)) override) w
     = resultOf (ab <- combineHashes a b (VString alg) ;;
                 abc <- combineHashes ab c (VString alg) ;;
                 ret (VString abc)) w1).
Proof.
  intros Hodd Halg. split.
  - destruct (paired_odd algorithm level Hodd) as (front & d & Hlevel & Hp).
    destruct (whileBody_runs level levelNumber algorithm) as (evs & Hrun & Hc & Hd).
    exists front, d, (paired algorithm front), evs.
    assert (Hlen : List.length level / 2 = List.length (paired algorithm front)).
    { rewrite paired_length, Hlevel, length_app. reflexivity. }
    split; [exact Hlevel|]. split; [now rewrite <- Hp; apply Hrun|].
    split; [|split; congruence].
    intros w1. destruct (forPairs_runs algorithm front 0 []) as (e0 & Hfor & _).
    unfold resultOf. now rewrite Hfor.
  - intros w1.
    rewrite (root_of_leaves [a; b; c] alg override ltac:(discriminate) Halg).
    unfold resultOf, bind. now rewrite !combineHashes_runs.
Qed.

(** C5. A reduction step takes the level two indices at a time, from the
    left: the digests at indices [2k] and [2k+1] give, through
    [combineHashes] under the algorithm of the Leaf Set, the element at
    index [k] of the next level, whose length is half the length of the
    level, rounded up.  So the root of a Leaf Set [[a, b]] is what
    [combineHashes] returns on [a] and [b], and the root of four leaves is
    [combineHashes] of the combined first pair and the combined second
    pair. *)
Theorem pairs_combined_in_order
  (level : list string) (levelNumber k : nat) (algorithm override : value)
  (x y a b h1 h2 h3 h4 alg : string) (w : World) :
  nth_error level (2 * k) = Some x -> nth_error level (2 * k + 1) = Some y ->
  alg <> "" ->
  (exists nextLevel evs parent,
     whileBody level levelNumber algorithm w = (Ok nextLevel, extend w evs) /\
     (forall w1, resultOf (combineHashes x y algorithm) w1 = Ok parent) /\
     nth_error nextLevel k = Some parent /\
     List.length nextLevel = ceilHalf (List.length level)) /\
  (forall w1,
     resultOf (buildMerkleRoot (leafObject [a; b] (VString alg)) override) w
     = resultOf (ab <- combineHashes a b (VString alg) ;; ret (VString ab)) w1) /\
  (forall w1,
     resultOf (buildMerkleRoot (leafObject [h1; h2; h3; h4] (VString alg)) override) w
     = resultOf (l <- combineHashes h1 h2 (VString alg) ;;
                 r <- combineHashes h3 h4 (VString alg) ;;
                 root <- combineHashes l r (VString alg) ;;
                 ret (VString root)) w1).
Proof.
  intros Hx Hy Halg. split; [|split].
  - destruct (whileBody_runs level levelNumber algorithm) as (evs & Hrun & _).
    exists (paired algorithm level), evs, (combined x y algorithm).
    split; [apply Hrun|]. split; [|split].
    + intros w1. unfold resultOf. now rewrite combineHashes_runs.
    + now apply paired_nth.
    + apply paired_length.
  - intros w1.
    rewrite (root_of_leaves [a; b] alg override ltac:(discriminate) Halg).
    unfold resultOf, bind. now rewrite !combineHashes_runs.
  - intros w1.
    rewrite (root_of_leaves [h1; h2; h3; h4] alg override ltac:(discriminate) Halg).
    unfold resultOf, bind. now rewrite !combineHashes_runs.
Qed.

(** ** The leaf source *)

Lemma generateLoop_supported (alg : string) (n : nat) :
  supported alg ->
  forall hashes w, exists fresh w',
    generateLoop n (VString alg) hashes w = (Ok (hashes ++ fresh), w') /\
    List.length fresh = n.
Proof.
  intros Halg. induction n as [|n IH]; intros hashes w.
  - exists [], w. cbn [generateLoop]. unfold ret. now rewrite app_nil_r.
  - cbn [generateLoop]. unfold bind at 1. unfold randomBytes.
    destruct (ethers_randomBytes 32 (entropy w)) as [bytes g].
    set (w1 := mkWorld g (trace w ++ [CallRandomBytes 32])).
    assert (Hhash : exists hash w2,
               (if VString alg === "sha256" then sha256 (Uint8Array bytes)
                else if VString alg === "keccak256" then keccak256 (Uint8Array bytes)
                else throw UnsupportedAlgorithm) w1 = (Ok hash, w2)).
    { destruct Halg as [-> | ->]; do 2 eexists; reflexivity. }
    destruct Hhash as (hash & w2 & Hhash).
    unfold bind. rewrite Hhash.
    destruct (IH (hashes ++ [hash]) w2) as (fresh & w' & Hrun & Hlen).
    exists (hash :: fresh), w'. split.
    + unfold bind in Hrun. rewrite Hrun. now rewrite <- app_assoc.
    + cbn. now rewrite Hlen.
Qed.






(** C3, as the code has it.  For every [count >= 1] and supported
    algorithm, [generateRandomHashes] returns a Leaf Set with exactly
    [count] hashes and the given algorithm.  For every [count < 1] it does
    not fail: it returns a Leaf Set with no hashes, tagged with the
    algorithm it was given (['keccak256'] when none was given). *)
Theorem generateRandomHashes_count
  (count : Z) (alg : string) (algorithm : value) (w : World) :
  supported alg ->
  ((1 <= count)%Z ->
   exists hashes w',
     generateRandomHashes count (VString alg) w
       = (Ok (leafObject hashes (VString alg)), w') /\
     Z.of_nat (List.length hashes) = count) /\
  ((count < 1)%Z ->
   generateRandomHashes count algorithm w
     = (Ok (leafObject [] (defaultParam algorithm (VString "keccak256"))), w)).
Proof.
  intros Halg. split; intros Hcount.
  - unfold generateRandomHashes. cbn [defaultParam].
    destruct (generateLoop_supported alg (Z.to_nat count) Halg [] w)
      as (hashes & w' & Hrun & Hlen).
    exists hashes, w'. unfold bind. rewrite Hrun. split; [reflexivity | lia].
  - unfold generateRandomHashes.
    replace (Z.to_nat count) with 0 by lia. reflexivity.
Qed.


(** C2, as the code has it.  Given a bare array of digests and no
    algorithm override, [buildMerkleRoot] takes ['keccak256'] as the
    algorithm: the run is the run with the override ['keccak256'], and the
    run on the Leaf Set of the same digests tagged ['keccak256'].  It
    returns a root when the array is not empty and raises EmptyInput when
    it is; it does not raise InvalidInput. *)
Theorem bare_array_defaults_to_keccak256
  (hashes : list string) (override : value) (w : World) :
  hashes <> [] ->
  buildMerkleRoot (VArray hashes) VUndefined w
    = buildMerkleRoot (VArray hashes) (VString "keccak256") w /\
  buildMerkleRoot (VArray hashes) VUndefined w
    = buildMerkleRoot (leafObject hashes (VString "keccak256")) override w /\
  (exists root,
     resultOf (buildMerkleRoot (VArray hashes) VUndefined) w = Ok (VString root)) /\
  buildMerkleRoot (VArray []) VUndefined w = (Throw EmptyInput, w).
Proof.
  intros Hne. split; [reflexivity|]. split; [|split; [|reflexivity]].
  - rewrite buildMerkleRoot_leafObject by discriminate. reflexivity.
  - destruct (buildTree_runs hashes "keccak256" Hne) as (k & evs & Hrun & Hlen & _).
    destruct (index_singleton _ Hlen) as (root & _ & Hroot).
    exists root. unfold resultOf. rewrite buildMerkleRoot_array.
    cbn [orElse truthy]. now rewrite Hrun, Hroot.
Qed.

(** ** Which events a run emits *)

Lemma extend_inj (w : World) (e1 e2 : list event) :
  extend w e1 = extend w e2 -> e1 = e2.
Proof.
  unfold extend. intros H. inversion H as [Ht]. now apply app_inv_head in Ht.
Qed.

Lemma emitsOnly_ret {A} P (a : A) : emitsOnly P (ret a).
Proof.
  intros w r w' H. inversion H; subst. exists []. now rewrite extend_nil.
Qed.

Lemma emitsOnly_throw {A} P e : emitsOnly P (throw (A := A) e).
Proof.
  intros w r w' H. inversion H; subst. exists []. now rewrite extend_nil.
Qed.

Lemma emitsOnly_emit P e : P e = true -> emitsOnly P (emit e).
Proof.
  intros HP w r w' H. inversion H; subst. exists [e]. split; [reflexivity|].
  cbn. now rewrite HP.
Qed.

Lemma emitsOnly_bind {A B} P (c : M A) (k : A -> M B) :
  emitsOnly P c -> (forall a, emitsOnly P (k a)) -> emitsOnly P (x <- c ;; k x).
Proof.
  intros Hc Hk w r w' H. unfold bind in H.
  destruct (c w) as [[a|e] w1] eqn:Hcw.
  - destruct (Hc _ _ _ Hcw) as (e1 & -> & H1).
    destruct (Hk a _ _ _ H) as (e2 & -> & H2).
    exists (e1 ++ e2). split; [apply extend_extend|].
    now rewrite forallb_app, H1, H2.
  - inversion H; subst. exact (Hc _ _ _ Hcw).
Qed.

Lemma emitsOnly_log {B} P line (k : unit -> M B) :
  P (ConsoleLog line) = true -> emitsOnly P (k tt) ->
  emitsOnly P (x <- console_log line ;; k x).
Proof.
  intros HP Hk. apply emitsOnly_bind; [now apply emitsOnly_emit|]. now intros [].
Qed.

Lemma emitsOnly_forEach_log P (f : string -> nat -> string) (l : list string) :
  (forall line, P (ConsoleLog line) = true) ->
  forall i, emitsOnly P (forEach (fun x j => console_log (f x j)) l i).
Proof.
  intros HP. induction l as [|x l IH]; intros i.
  - apply emitsOnly_ret.
  - cbn [forEach]. apply emitsOnly_log; [apply HP | apply IH].
Qed.

Lemma combineHashes_allowed (left right : string) (algorithm : value) :
  emitsOnly (allowed algorithm) (combineHashes left right algorithm).
Proof.
  unfold combineHashes.
  destruct (if (left <? right)%string then (left, right) else (right, left))
    as [first second].
  apply emitsOnly_log; [reflexivity|].
  apply emitsOnly_bind.
  { unfold concat. apply emitsOnly_bind; [now apply emitsOnly_emit|].
    intros _. apply emitsOnly_ret. }
  intros combined. apply emitsOnly_bind.
  { destruct (algorithm === "sha256") eqn:Halg.
    - unfold sha256. apply emitsOnly_bind; [|intros _; apply emitsOnly_ret].
      apply emitsOnly_emit. exact Halg.
    - unfold keccak256. apply emitsOnly_bind; [|intros _; apply emitsOnly_ret].
      apply emitsOnly_emit. cbn. now rewrite Halg. }
  intros hash. apply emitsOnly_log; [reflexivity | apply emitsOnly_ret].
Qed.

Lemma forPairs_allowed (algorithm : value) (rest : list string) :
  forall i nextLevel, emitsOnly (allowed algorithm) (forPairs rest i algorithm nextLevel).
Proof.
  induction rest as [| x | l r rest IH] using pair_ind; intros i nextLevel.
  - apply emitsOnly_ret.
  - cbn [forPairs]. do 3 (apply emitsOnly_log; [reflexivity|]). apply emitsOnly_ret.
  - cbn [forPairs]. do 3 (apply emitsOnly_log; [reflexivity|]).
    apply emitsOnly_bind; [apply combineHashes_allowed|].
    intros parentHash. apply emitsOnly_log; [reflexivity | apply IH].
Qed.

Lemma whileBody_allowed (currentLevel : list string) levelNumber algorithm :
  emitsOnly (allowed algorithm) (whileBody currentLevel levelNumber algorithm).
Proof.
  unfold whileBody. do 3 (apply emitsOnly_log; [reflexivity|]).
  apply emitsOnly_bind; [apply forPairs_allowed|]. intros nextLevel.
  apply emitsOnly_log; [reflexivity|].
  apply emitsOnly_bind; [now apply emitsOnly_forEach_log|]. intros _.
  apply emitsOnly_log; [reflexivity | apply emitsOnly_ret].
Qed.

Lemma whileLoop_allowed (algorithm : value) (currentLevel : list string) :
  forall levelNumber,
    emitsOnly (allowed algorithm) (whileLoop currentLevel levelNumber algorithm).
Proof.
  remember (List.length currentLevel) as n eqn:Hn.
  revert currentLevel Hn.
  induction n as [n IH] using lt_wf_ind. intros currentLevel Hn levelNumber w r w' H.
  rewrite whileLoop_step in H.
  destruct (1 <? List.length currentLevel)%nat eqn:Hgt.
  - apply Nat.ltb_lt in Hgt.
    destruct (whileBody currentLevel levelNumber algorithm w) as [[next|e] w1] eqn:Hb.
    + destruct (whileBody_allowed _ _ _ _ _ _ Hb) as (e1 & -> & H1).
      destruct (whileBody_runs currentLevel levelNumber algorithm) as (e0 & Hrun & _).
      rewrite Hrun in Hb. inversion Hb as [[Hnext Hw]]. clear Hb.
      assert (Hlt : List.length next < n).
      { rewrite <- Hnext, paired_length, Hn. apply ceilHalf_lt. lia. }
      destruct (IH _ Hlt next eq_refl _ _ _ _ H) as (e2 & -> & H2).
      exists (e1 ++ e2). split; [apply extend_extend|].
      now rewrite forallb_app, H1, H2.
    + inversion H; subst. exact (whileBody_allowed _ _ _ _ _ _ Hb).
  - inversion H; subst. exists []. now rewrite extend_nil.
Qed.

Lemma buildTree_allowed (leaves algorithm : value) :
  emitsOnly (allowed algorithm) (buildTree leaves algorithm).
Proof.
  unfold buildTree.
  apply emitsOnly_bind.
  { destruct (_ || _)%bool; [apply emitsOnly_throw | apply emitsOnly_ret]. }
  intros _. do 3 (apply emitsOnly_log; [reflexivity|]).
  apply emitsOnly_bind.
  { destruct algorithm; try apply emitsOnly_throw. apply emitsOnly_ret. }
  intros upper. do 4 (apply emitsOnly_log; [reflexivity|]).
  apply emitsOnly_bind.
  { destruct leaves; try apply emitsOnly_throw. apply emitsOnly_ret. }
  intros elems.
  apply emitsOnly_bind; [now apply emitsOnly_forEach_log|]. intros _.
  apply emitsOnly_log; [reflexivity|].
  apply emitsOnly_bind; [apply whileLoop_allowed|]. intros state.
  do 4 (apply emitsOnly_log; [reflexivity|]). apply emitsOnly_ret.
Qed.

Lemma allowed_counts (algorithm : value) (evs : list event) :
  forallb (allowed algorithm) evs = true ->
  randomCalls evs = 0 /\ utf8Calls evs = 0 /\
  (if algorithm === "sha256"
   then keccak256Calls evs = 0 /\ sha256Calls evs = digestCalls evs
   else sha256Calls evs = 0 /\ keccak256Calls evs = digestCalls evs).
Proof.
  unfold randomCalls, utf8Calls, keccak256Calls, sha256Calls, digestCalls.
  induction evs as [|e evs IH]; intros H.
  - destruct (algorithm === "sha256"); repeat split.
  - cbn [forallb] in H. apply andb_prop in H. destruct H as [He Hevs].
    specialize (IH Hevs). destruct IH as (Hr & Hu & Hd).
    destruct e; cbn in He; try discriminate; cbn [filter isRandomCall isUtf8Call
      isSha256Call isKeccak256Call isDigestCall List.length];
      try (repeat split; assumption).
    + rewrite He in *. destruct Hd as [Hk Hs]. repeat split; try assumption.
      now rewrite Hs.
    + apply negb_true_iff in He. rewrite He in *. destruct Hd as [Hs Hk].
      repeat split; try assumption. now rewrite Hk.
Qed.

(** ** The level the loop ends with *)

Lemma reduced_root (hashes : list string) (alg : string) override w :
  hashes <> [] -> alg <> "" ->
  resultOf (buildMerkleRoot (leafObject hashes (VString alg)) override) w
  = Ok (index (reduced (VString alg) hashes) 0).
Proof. intros Hne Halg. now apply root_of_leaves. Qed.

Lemma reduced_singleton (algorithm : value) (hashes : list string) :
  hashes <> [] -> exists d, reduced algorithm hashes = [d].
Proof.
  intros Hne.
  destruct (whileLoop_runs algorithm hashes 1) as (k & evs & _ & Hlen & _ & _ & _ & ->).
  assert (Hpos : 1 <= List.length hashes) by (destruct hashes; [congruence | cbn; lia]).
  unfold reduced.
  replace (Nat.min 1 (List.length hashes)) with 1 in Hlen by lia.
  destruct (index_singleton _ Hlen) as (d & Hd & _).
  now exists d.
Qed.

Lemma reduced_step (algorithm : value) (level : list string) :
  2 <= List.length level ->
  reduced algorithm level = reduced algorithm (paired algorithm level).
Proof.
  intros Hlen. unfold reduced.
  rewrite paired_length, (log2_up_ceilHalf _ Hlen). apply Nat.iter_succ_r.
Qed.

Lemma combined_comm (a b : string) (algorithm : value) :
  combined a b algorithm = combined b a algorithm.
Proof.
  unfold combined.
  destruct (a <? b)%string eqn:Hab.
  - now rewrite (ltb_asym _ _ Hab).
  - destruct (b <? a)%string eqn:Hba; [reflexivity|].
    now rewrite (ltb_total _ _ Hab Hba).
Qed.

Lemma siblingSwap_paired (algorithm : value) (l l' : list string) :
  siblingSwap l l' ->
  paired algorithm l = paired algorithm l' /\ List.length l = List.length l'.
Proof.
  induction 1 as [| x | x y l l' _ [IHp IHl] | x y l l' _ [IHp IHl]].
  - now split.
  - now split.
  - cbn [paired List.length]. now rewrite IHp, IHl.
  - cbn [paired List.length]. now rewrite IHp, IHl, (combined_comm x y).
Qed.

Lemma siblingSwap_reduced (algorithm : value) (l l' : list string) :
  siblingSwap l l' -> reduced algorithm l = reduced algorithm l'.
Proof.
  intros Hswap. destruct (siblingSwap_paired algorithm l l' Hswap) as [Hp Hl].
  destruct (le_lt_dec 2 (List.length l)) as [Hge | Hlt].
  - rewrite (reduced_step _ l Hge), (reduced_step _ l') by lia. now rewrite Hp.
  - inversion Hswap; subst; try reflexivity; cbn in Hlt; lia.
Qed.

Lemma log2_up_eq_1 (m : nat) : Nat.log2_up m = 1 -> m = 2.
Proof.
  intros H. destruct m as [|[|m]]; try discriminate.
  assert (Hm : 1 < S (S m)) by lia.
  destruct (Nat.log2_up_spec _ Hm) as [_ Hhi]. rewrite H in Hhi. cbn in Hhi. lia.
Qed.

Lemma iter_paired_log (algorithm : value) (j : nat) :
  forall l, j <= Nat.log2_up (List.length l) ->
    Nat.log2_up (List.length (Nat.iter j (paired algorithm) l))
    = Nat.log2_up (List.length l) - j.
Proof.
  induction j as [|j IH]; intros l Hj.
  - cbn [Nat.iter nat_rect]. lia.
  - assert (Hlen : 2 <= List.length l).
    { destruct l as [|x [|y l]]; cbn in Hj; try lia. cbn. lia. }
    rewrite Nat.iter_succ_r, IH; rewrite paired_length, (log2_up_ceilHalf _ Hlen) in *; lia.
Qed.

Lemma paired_app_even (algorithm : value) (l1 l2 : list string) :
  Nat.even (List.length l1) = true ->
  paired algorithm (l1 ++ l2) = paired algorithm l1 ++ paired algorithm l2.
Proof.
  induction l1 as [| x | x y l IH] using pair_ind; intros Heven.
  - reflexivity.
  - discriminate.
  - cbn [app paired]. now rewrite IH.
Qed.

Lemma ceilHalf_double (m : nat) : ceilHalf (2 * m) = m.
Proof.
  unfold ceilHalf. replace (2 * m + 1) with (1 + m * 2) by lia.
  rewrite Nat.div_add by lia. reflexivity.
Qed.

Lemma ceilHalf_le_mono (a b : nat) : a <= b -> ceilHalf a <= ceilHalf b.
Proof. intros H. unfold ceilHalf. apply Nat.Div0.div_le_mono. lia. Qed.

Lemma reduced_split (algorithm : value) (k : nat) :
  forall l1 l2,
    List.length l1 = 2 ^ k -> 1 <= List.length l2 -> List.length l2 <= 2 ^ k ->
    exists r1 r2,
      reduced algorithm l1 = [r1] /\ reduced algorithm l2 = [r2] /\
      reduced algorithm (l1 ++ l2) = [combined r1 r2 algorithm].
Proof.
  induction k as [|k IH]; intros l1 l2 H1 Hlo Hhi.
  - destruct l1 as [|x [|? ?]]; try discriminate.
    destruct l2 as [|y [|? ?]]; cbn in Hlo, Hhi; try lia.
    exists x, y. repeat split.
  - rewrite Nat.pow_succ_r' in H1, Hhi.
    assert (Hpow : 1 <= 2 ^ k) by (apply Nat.neq_0_lt_0, Nat.pow_nonzero; lia).
    assert (Heven : Nat.even (List.length l1) = true)
      by (rewrite H1, Nat.even_mul; reflexivity).
    destruct (IH (paired algorithm l1) (paired algorithm l2)) as (r1 & r2 & Hr1 & Hr2 & Hr).
    + now rewrite paired_length, H1, ceilHalf_double.
    + rewrite paired_length. now apply ceilHalf_pos.
    + rewrite paired_length, <- (ceilHalf_double (2 ^ k)). now apply ceilHalf_le_mono.
    + exists r1, r2. split; [|split].
      * rewrite reduced_step by lia. exact Hr1.
      * destruct (le_lt_dec 2 (List.length l2)) as [Hge | Hlt].
        -- rewrite reduced_step by exact Hge. exact Hr2.
        -- destruct l2 as [|y [|? ?]]; cbn in Hlo, Hlt; try lia. exact Hr2.
      * rewrite reduced_step by (rewrite length_app; lia).
        rewrite paired_app_even by exact Heven. exact Hr.
Qed.

(** ** The whole tree *)

(** X1. A tree over [n >= 1] leaves costs [n - 1] combinations:
    [buildMerkleRoot] on a non-empty Leaf Set returns a root after exactly
    [n - 1] calls of [concat] and [n - 1] calls of a hash function, all of
    them of [sha256] when the algorithm is ['sha256'] and all of them of
    [keccak256] otherwise, and no call of [randomBytes] or [toUtf8Bytes]. *)
Theorem tree_costs_leaves_minus_one
  (hashes : list string) (alg : string) (override : value) (w : World) :
  hashes <> [] -> alg <> "" ->
  exists root evs,
    buildMerkleRoot (leafObject hashes (VString alg)) override w
      = (Ok (VString root), extend w evs) /\
    combineCalls evs = List.length hashes - 1 /\
    digestCalls evs = List.length hashes - 1 /\
    (if (alg =? "sha256")%string
     then sha256Calls evs = List.length hashes - 1 /\ keccak256Calls evs = 0
     else keccak256Calls evs = List.length hashes - 1 /\ sha256Calls evs = 0) /\
    randomCalls evs = 0 /\ utf8Calls evs = 0.
Proof.
  intros Hne Halg.
  destruct (buildTree_runs hashes alg Hne) as (k & evs & Hrun & Hlen & _ & Hc & Hd & _).
  destruct (index_singleton _ Hlen) as (root & _ & Hroot).
  exists root, evs. rewrite buildMerkleRoot_leafObject by exact Halg.
  rewrite <- Hroot. split; [apply Hrun|]. split; [exact Hc|]. split; [exact Hd|].
  destruct (buildTree_allowed _ _ _ _ _ (Hrun w)) as (evs' & Heq & Hall).
  apply extend_inj in Heq. subst evs'.
  destruct (allowed_counts _ _ Hall) as (Hr & Hu & Hcount).
  change (VString alg === "sha256") with (alg =? "sha256")%string in Hcount.
  destruct (alg =? "sha256")%string; destruct Hcount as [H0 Heq];
    (split; [split; [now rewrite Heq | exact H0] | now split]).
Qed.

(** X2. One run of [buildMerkleRoot] never uses both hash functions.  On
    every input, whether it returns or throws, the run leaves the random
    source as it was, calls [sha256] or [keccak256] but not both, and calls
    neither [randomBytes] nor [toUtf8Bytes]. *)
Theorem one_hash_function_per_run
  (leavesInput override : value) (w w' : World) (r : Result value) :
  buildMerkleRoot leavesInput override w = (r, w') ->
  exists evs,
    w' = extend w evs /\ entropy w' = entropy w /\
    (sha256Calls evs = 0 \/ keccak256Calls evs = 0) /\
    randomCalls evs = 0 /\ utf8Calls evs = 0.
Proof.
  intros Hrun. unfold buildMerkleRoot, bind in Hrun.
  destruct (resolveInput_cases leavesInput override) as [[input Hok] | Hthrow].
  - rewrite Hok in Hrun.
    destruct (buildTree_allowed _ _ _ _ _ Hrun) as (evs & -> & Hall).
    destruct (allowed_counts _ _ Hall) as (Hr & Hu & Hcount).
    exists evs. split; [reflexivity|]. split; [reflexivity|].
    split; [|now split].
    destruct (snd input === "sha256"); destruct Hcount as [H0 _]; [now right | now left].
  - rewrite Hthrow in Hrun. inversion Hrun; subst.
    exists []. rewrite extend_nil. repeat split. now left.
Qed.

(** X3. A level and the level above it have the same root.  If one
    iteration of the loop turns a level of two or more digests into
    [nextLevel], then [buildMerkleRoot] returns the same root on the Leaf
    Set of the level and on the Leaf Set of [nextLevel]: leaves and inner
    nodes are not told apart. *)
Theorem root_of_next_level
  (level nextLevel : list string) (levelNumber : nat) (alg : string)
  (override : value) (w w0 w1 : World) :
  2 <= List.length level -> alg <> "" ->
  whileBody level levelNumber (VString alg) w0 = (Ok nextLevel, w1) ->
  resultOf (buildMerkleRoot (leafObject level (VString alg)) override) w
  = resultOf (buildMerkleRoot (leafObject nextLevel (VString alg)) override) w.
Proof.
  intros Hlen Halg Hbody.
  destruct (whileBody_runs level levelNumber (VString alg)) as (evs & Hrun & _).
  rewrite Hrun in Hbody. inversion Hbody as [[Hnext Hw]].
  assert (Hpos := ceilHalf_pos (List.length level) ltac:(lia)).
  rewrite !reduced_root; try exact Halg.
  - now rewrite reduced_step.
  - intros Hnil. apply (f_equal (@List.length string)) in Hnil.
    rewrite paired_length in Hnil. cbn [List.length] in Hnil. lia.
  - intros ->. cbn in Hlen. lia.
Qed.

(** X4. The order inside sibling pairs of leaves does not matter: two Leaf
    Sets that differ only by exchanging the digests at indices [2k] and
    [2k+1], for any number of pairs, give the same result. *)
Theorem sibling_order_irrelevant
  (hashes hashes' : list string) (alg : string) (override : value) (w : World) :
  siblingSwap hashes hashes' -> alg <> "" ->
  resultOf (buildMerkleRoot (leafObject hashes (VString alg)) override) w
  = resultOf (buildMerkleRoot (leafObject hashes' (VString alg)) override) w.
Proof.
  intros Hswap Halg.
  destruct (siblingSwap_paired (VString alg) _ _ Hswap) as [_ Hlen].
  destruct hashes as [|h hashes]; destruct hashes' as [|h' hashes'];
    try discriminate.
  - reflexivity.
  - rewrite !reduced_root by (discriminate || exact Halg).
    now rewrite (siblingSwap_reduced _ _ _ Hswap).
Qed.

(** X6. The tree splits at a power of two.  When the first [2^k] leaves
    are followed by at least one and at most [2^k] more, the root of the
    whole Leaf Set is what [combineHashes] returns on the root of the first
    [2^k] leaves and the root of the remaining ones. *)
Theorem root_splits_at_power_of_two
  (k : nat) (l1 l2 : list string) (alg : string) (override : value) (w : World) :
  List.length l1 = 2 ^ k -> 1 <= List.length l2 -> List.length l2 <= 2 ^ k ->
  alg <> "" ->
  exists r1 r2,
    resultOf (buildMerkleRoot (leafObject l1 (VString alg)) override) w
      = Ok (VString r1) /\
    resultOf (buildMerkleRoot (leafObject l2 (VString alg)) override) w
      = Ok (VString r2) /\
    forall w1,
      resultOf (buildMerkleRoot (leafObject (l1 ++ l2) (VString alg)) override) w
      = resultOf (r <- combineHashes r1 r2 (VString alg) ;; ret (VString r)) w1.
Proof.
  intros H1 Hlo Hhi Halg.
  destruct (reduced_split (VString alg) k l1 l2 H1 Hlo Hhi) as (r1 & r2 & Hr1 & Hr2 & Hr).
  assert (Hpow : 1 <= 2 ^ k) by (apply Nat.neq_0_lt_0, Nat.pow_nonzero; lia).
  exists r1, r2. split; [|split].
  - rewrite reduced_root; [now rewrite Hr1 | | exact Halg].
    intros ->. cbn in H1. lia.
  - rewrite reduced_root; [now rewrite Hr2 | | exact Halg].
    intros ->. cbn in Hlo. lia.
  - intros w1. rewrite reduced_root; [| | exact Halg].
    + rewrite Hr. unfold resultOf, bind. now rewrite combineHashes_runs.
    + intros Hnil. apply (f_equal (@List.length string)) in Hnil.
      rewrite length_app in Hnil. cbn [List.length] in Hnil. lia.
Qed.

(** ** What buildMerkleRoot accepts *)

Lemma buildMerkleRoot_carried (leavesInput override : value) w :
  carriesLeaves leavesInput = true ->
  buildMerkleRoot leavesInput override w
  = buildTree (getProp leavesInput "hashes") (getProp leavesInput "algorithm") w.
Proof.
  intros H. unfold carriesLeaves in H.
  unfold buildMerkleRoot, resolveInput. now rewrite H.
Qed.

Lemma buildMerkleRoot_not_carried (leavesInput override : value) w :
  carriesLeaves leavesInput = false ->
  buildMerkleRoot leavesInput override w
  = if isArray leavesInput
    then buildTree leavesInput (orElse override (VString "keccak256")) w
    else (Throw InvalidInput, w).
Proof.
  intros H. unfold carriesLeaves in H.
  unfold buildMerkleRoot, resolveInput. rewrite H.
  now destruct (isArray leavesInput).
Qed.

Lemma carriesLeaves_leafObject (hashes : list string) (algorithm : value) :
  carriesLeaves (leafObject hashes algorithm) = truthy algorithm.
Proof. reflexivity. Qed.

Lemma buildTree_fails_in_tree (leaves algorithm : value) :
  failsOnly (fun e => e = EmptyInput \/ e = TypeError) (buildTree leaves algorithm).
Proof.
  unfold buildTree.
  destruct (negb (truthy leaves) || strictEqNumber (getProp leaves "length") 0)%bool eqn:Hc.
  { apply failsOnly_bind_throw. now left. }
  apply failsOnly_bind with (a := tt) (evs := []);
    [intros w; apply runs_ret | reflexivity |].
  do 3 apply failsOnly_log.
  destruct algorithm as [| | b | z | alg | a | o];
    try (apply failsOnly_bind_throw; now right).
  apply failsOnly_bind with (a := toUpperCase alg) (evs := []);
    [intros w; apply runs_ret | reflexivity |].
  do 4 apply failsOnly_log.
  destruct leaves as [| | b | z | t | elems | o];
    try (apply failsOnly_bind_throw; now right).
  assert (Hne : elems <> []) by (intros ->; discriminate).
  apply failsOnly_runs. intros w.
  destruct (buildTree_runs elems alg Hne) as (k & evs & Hrun & _).
  destruct (forEach_log_runs (fun leaf i => ("  [" ++ showNat i ++ "] " ++ leaf)%string)
              elems 0) as (e1 & Hlog & _).
  destruct (whileLoop_runs (VString alg) elems 1) as (k' & evs' & Hloop & _).
  do 2 eexists.
  eapply runs_bind; [apply runs_ret|].
  eapply runs_bind; [apply Hlog|].
  eapply runs_bind; [apply runs_log|].
  eapply runs_bind; [apply Hloop|].
  do 4 (eapply runs_bind; [apply runs_log|]).
  apply runs_ret.
Qed.

(** What [buildTree] needs to return: an array that is not empty and an
    algorithm that is a string. *)
Lemma buildTree_ok_inv (leaves algorithm : value) (root : value) w :
  resultOf (buildTree leaves algorithm) w = Ok root ->
  exists elems alg, leaves = VArray elems /\ elems <> [] /\ algorithm = VString alg.
Proof.
  unfold resultOf, buildTree. intros H.
  destruct (negb (truthy leaves) || strictEqNumber (getProp leaves "length") 0)%bool eqn:Hc.
  { discriminate. }
  destruct algorithm as [| | b | z | alg | a | o]; try discriminate.
  destruct leaves as [| | b | z | t | elems | o]; try discriminate.
  exists elems, alg. repeat split. intros ->. discriminate.
Qed.

(** X7. Of an input object, only the [hashes] and [algorithm] properties
    count.  When [hashes] is an array and [algorithm] is truthy, the run is
    the run on the plain Leaf Set of that array and that algorithm: other
    properties of the object and the override argument are ignored. *)
Theorem only_hashes_and_algorithm_count
  (props : list (string * value)) (hashes : list string)
  (algorithm override override' : value) (w : World) :
  lookup "hashes" props = VArray hashes -> lookup "algorithm" props = algorithm ->
  truthy algorithm = true ->
  buildMerkleRoot (VObject props) override w
  = buildMerkleRoot (leafObject hashes algorithm) override' w.
Proof.
  intros Hh Ha Ht.
  rewrite !buildMerkleRoot_carried.
  - cbn [getProp]. rewrite Hh, Ha. reflexivity.
  - rewrite carriesLeaves_leafObject. exact Ht.
  - unfold carriesLeaves. cbn [truthy typeof getProp]. rewrite Hh, Ha, Ht. reflexivity.
Qed.

(** X8. [buildMerkleRoot] raises InvalidInput exactly when the input is
    neither an array nor a value that passes the test of line 89 (an
    object with a truthy [hashes] and a truthy [algorithm]); and it raises
    it before any output. *)
Theorem invalid_input_iff (leavesInput override : value) (w : World) :
  (resultOf (buildMerkleRoot leavesInput override) w = Throw InvalidInput
   <-> carriesLeaves leavesInput = false /\ isArray leavesInput = false) /\
  (resultOf (buildMerkleRoot leavesInput override) w = Throw InvalidInput ->
   buildMerkleRoot leavesInput override w = (Throw InvalidInput, w)).
Proof.
  assert (Htree : forall leaves algorithm,
             resultOf (buildTree leaves algorithm) w <> Throw InvalidInput).
  { intros leaves algorithm Heq. unfold resultOf in Heq.
    destruct (buildTree leaves algorithm w) as [r w'] eqn:Hrun. cbn in Heq. subst r.
    apply buildTree_fails_in_tree in Hrun. destruct Hrun as [[He | He] _]; discriminate. }
  assert (Hiff : resultOf (buildMerkleRoot leavesInput override) w = Throw InvalidInput
                 -> carriesLeaves leavesInput = false /\ isArray leavesInput = false).
  { intros H. unfold resultOf in H.
    destruct (carriesLeaves leavesInput) eqn:Hc.
    - rewrite buildMerkleRoot_carried in H by exact Hc. now apply Htree in H.
    - rewrite buildMerkleRoot_not_carried in H by exact Hc.
      destruct (isArray leavesInput); [now apply Htree in H | now split]. }
  split; [split; [exact Hiff|] |].
  - intros [Hc Ha]. unfold resultOf.
    rewrite buildMerkleRoot_not_carried by exact Hc. now rewrite Ha.
  - intros H. destruct (Hiff H) as [Hc Ha].
    rewrite buildMerkleRoot_not_carried by exact Hc. now rewrite Ha.
Qed.

(** X10. An algorithm that is truthy but not a string is not rejected as
    unsupported: with leaves present, [buildMerkleRoot] raises a TypeError
    of the language at [algorithm.toUpperCase()], after the first three
    lines of the banner and before any hashing.  This holds for the
    algorithm of a Leaf Set and for the override of a bare array. *)
Theorem non_string_algorithm_is_a_type_error
  (hashes : list string) (algorithm override : value) (w : World) :
  hashes <> [] -> truthy algorithm = true -> (forall s, algorithm <> VString s) ->
  buildMerkleRoot (leafObject hashes algorithm) override w
    = (Throw TypeError,
       extend w [ConsoleLog (nl ++ rule); ConsoleLog "BUILDING MERKLE TREE";
                 ConsoleLog rule]) /\
  buildMerkleRoot (VArray hashes) algorithm w
    = (Throw TypeError,
       extend w [ConsoleLog (nl ++ rule); ConsoleLog "BUILDING MERKLE TREE";
                 ConsoleLog rule]).
Proof.
  intros Hne Ht Hs.
  assert (Htree : buildTree (VArray hashes) algorithm w
                  = (Throw TypeError,
                     extend w [ConsoleLog (nl ++ rule); ConsoleLog "BUILDING MERKLE TREE";
                               ConsoleLog rule])).
  { unfold buildTree. unfold bind at 1. rewrite (nonempty_check hashes Hne).
    cbv beta iota delta [ret]. unfold bind, console_log, emit, extend.
    cbn [entropy trace].
    destruct algorithm; try (cbn [call_toUpperCase throw]; rewrite <- !app_assoc; reflexivity).
    now destruct (Hs s). }
  split.
  - rewrite buildMerkleRoot_carried by (now rewrite carriesLeaves_leafObject).
    exact Htree.
  - rewrite buildMerkleRoot_array. unfold orElse. rewrite Ht. exact Htree.
Qed.

(** ** The leaf source, exactly *)

Lemma accepted_dispatch (algorithm : value) (data : BytesLike) :
  accepted algorithm ->
  let a := defaultParam algorithm (VString "keccak256") in
  (exists alg, a = VString alg /\ supported alg) /\
  forall w,
    (if a === "sha256" then sha256 data
     else if a === "keccak256" then keccak256 data
     else throw UnsupportedAlgorithm) w
    = (Ok (digestOf a data), extend w [digestCallOf a data]).
Proof.
  intros [-> | [-> | ->]]; cbn; (split; [eexists; split; [reflexivity|] |]);
    try (now left); try (now right); reflexivity.
Qed.

Lemma draw_length (n : nat) : forall g, List.length (fst (draw n g)) = n.
Proof.
  induction n as [|n IH]; intros g; [reflexivity|].
  cbn [draw]. destruct (ethers_randomBytes 32 g) as [block g1].
  specialize (IH g1). destruct (draw n g1) as [blocks g2]. cbn in *. now rewrite IH.
Qed.

(** The events of [generateRandomHashes]: for each block, the draw and the
    hash. *)
Lemma generateLoop_exact (algorithm : value) (n : nat) :
  accepted algorithm ->
  let a := defaultParam algorithm (VString "keccak256") in
  forall hashes w,
    generateLoop n a hashes w
    = (Ok (hashes ++ map (fun block => digestOf a (Uint8Array block))
                         (fst (draw n (entropy w)))),
       mkWorld (snd (draw n (entropy w)))
               (trace w ++ flat_map (fun block => [CallRandomBytes 32;
                                                   digestCallOf a (Uint8Array block)])
                                    (fst (draw n (entropy w))))).
Proof.
  intros Hacc a. induction n as [|n IH]; intros hashes w.
  - cbn. unfold ret. rewrite !app_nil_r. now destruct w.
  - cbn [generateLoop draw]. unfold bind at 1. unfold randomBytes.
    destruct (ethers_randomBytes 32 (entropy w)) as [block g1].
    unfold bind at 1.
    destruct (accepted_dispatch algorithm (Uint8Array block) Hacc) as [_ Hd].
    fold a in Hd. rewrite Hd. rewrite IH. cbn [extend entropy trace].
    destruct (draw n g1) as [blocks g2]. cbn [fst snd map flat_map].
    rewrite <- !app_assoc. reflexivity.
Qed.

Lemma leafTrace_counts (a : value) (blocks : list (list Byte.byte)) :
  let t := flat_map (fun block => [CallRandomBytes 32; digestCallOf a (Uint8Array block)])
                    blocks in
  randomCalls t = List.length blocks /\ digestCalls t = List.length blocks /\
  combineCalls t = 0 /\ utf8Calls t = 0 /\
  (if a === "sha256"
   then sha256Calls t = List.length blocks /\ keccak256Calls t = 0
   else keccak256Calls t = List.length blocks /\ sha256Calls t = 0).
Proof.
  unfold randomCalls, digestCalls, combineCalls, utf8Calls, sha256Calls, keccak256Calls,
    digestCallOf.
  induction blocks as [|block blocks IH]; cbn [flat_map app].
  - destruct (a === "sha256"); repeat split.
  - destruct IH as (Hr & Hd & Hc & Hu & Hs).
    destruct (a === "sha256"); destruct Hs as [H1 H2];
      cbn [filter isRandomCall isDigestCall isCombineCall isUtf8Call isSha256Call
           isKeccak256Call List.length];
      repeat split; congruence.
Qed.

(** X11. What [generateRandomHashes] does when the algorithm is omitted or
    supported.  It draws [count] blocks of 32 random bytes, one after the
    other, and hashes each block right after drawing it, with the function
    the algorithm names (keccak256 when omitted); the Leaf Set holds those
    digests in the order of the draws and is tagged with that algorithm,
    and the random source is left as the last draw leaves it. *)
Theorem generateRandomHashes_hashes_the_draws
  (count : Z) (algorithm : value) (w : World) :
  accepted algorithm ->
  let a := defaultParam algorithm (VString "keccak256") in
  let blocks := fst (draw (Z.to_nat count) (entropy w)) in
  generateRandomHashes count algorithm w
  = (Ok (leafObject (map (fun block => digestOf a (Uint8Array block)) blocks) a),
     mkWorld (snd (draw (Z.to_nat count) (entropy w)))
             (trace w ++ flat_map (fun block => [CallRandomBytes 32;
                                                 digestCallOf a (Uint8Array block)])
                                  blocks)) /\
  List.length blocks = Z.to_nat count.
Proof.
  intros Hacc a blocks. split; [|apply draw_length].
  unfold generateRandomHashes, bind. fold a.
  rewrite (generateLoop_exact algorithm (Z.to_nat count) Hacc). reflexivity.
Qed.

Lemma generated_leaf_set
  (count : Z) (algorithm : value) (w : World) :
  accepted algorithm ->
  exists hashes alg g t,
    generateRandomHashes count algorithm w
      = (Ok (leafObject hashes (VString alg)), mkWorld g (trace w ++ t)) /\
    List.length hashes = Z.to_nat count /\ supported alg /\
    randomCalls t = Z.to_nat count /\ digestCalls t = Z.to_nat count /\
    combineCalls t = 0 /\
    (if VString alg === "sha256"
     then sha256Calls t = Z.to_nat count /\ keccak256Calls t = 0
     else keccak256Calls t = Z.to_nat count /\ sha256Calls t = 0).
Proof.
  intros Hacc.
  destruct (accepted_dispatch algorithm (HexString "") Hacc) as [(alg & Ha & Hsup) _].
  unfold generateRandomHashes, bind.
  rewrite (generateLoop_exact algorithm (Z.to_nat count) Hacc). rewrite Ha.
  destruct (leafTrace_counts (VString alg) (fst (draw (Z.to_nat count) (entropy w))))
    as (Hr & Hd & Hc & _ & Hs).
  rewrite draw_length in *.
  do 4 eexists. split; [reflexivity|].
  cbn [app]. rewrite length_map, draw_length. repeat split; assumption.
Qed.

(** X12. Generation and reduction fit together, as in the script at the
    end of merkle.js.  For [count >= 1] and an algorithm omitted or
    supported, [generateRandomHashes] returns a Leaf Set on which
    [buildMerkleRoot] returns a root; the two runs together draw [count]
    random blocks, combine [count - 1] times and hash [2 * count - 1]
    times, and every one of these hashes is computed by the same
    function. *)
Theorem generated_leaves_build_a_root
  (count : Z) (algorithm override : value) (w : World) :
  accepted algorithm -> (1 <= count)%Z ->
  exists leaves w1 root w2 evs,
    generateRandomHashes count algorithm w = (Ok leaves, w1) /\
    buildMerkleRoot leaves override w1 = (Ok (VString root), w2) /\
    trace w2 = trace w ++ evs /\
    randomCalls evs = Z.to_nat count /\
    combineCalls evs = Z.to_nat count - 1 /\
    digestCalls evs = 2 * Z.to_nat count - 1 /\
    (sha256Calls evs = 0 \/ keccak256Calls evs = 0).
Proof.
  intros Hacc Hcount.
  destruct (generated_leaf_set count algorithm w Hacc)
    as (hashes & alg & g & t & Hgen & Hlen & Hsup & Hr & Hd & Hc & Hs).
  assert (Hne : hashes <> []).
  { intros ->. cbn in Hlen. lia. }
  assert (Halg : alg <> "") by (destruct Hsup as [-> | ->]; discriminate).
  destruct (buildTree_runs hashes alg Hne) as (k & evs & Hrun & Hlev & _ & Hc2 & Hd2 & _).
  destruct (index_singleton _ Hlev) as (root & _ & Hroot).
  destruct (buildTree_allowed _ _ _ _ _ (Hrun (mkWorld g (trace w ++ t))))
    as (evs' & Heq & Hall).
  apply extend_inj in Heq. subst evs'.
  destruct (allowed_counts _ _ Hall) as (Hr2 & _ & Hs2).
  exists (leafObject hashes (VString alg)), (mkWorld g (trace w ++ t)), root,
         (extend (mkWorld g (trace w ++ t)) evs), (t ++ evs).
  split; [exact Hgen|]. split.
  { rewrite buildMerkleRoot_leafObject by exact Halg. rewrite <- Hroot. apply Hrun. }
  split; [cbn; now rewrite app_assoc|].
  unfold randomCalls, combineCalls, digestCalls, sha256Calls, keccak256Calls in *.
  rewrite !filter_app, !length_app.
  repeat split; try lia.
  destruct (VString alg === "sha256"); destruct Hs as [Hs1 Hs0];
    destruct Hs2 as [Hz Hn]; [right | left]; lia.
Qed.

(** X13. [hashString] returns exactly when the algorithm is omitted or is
    one of the two names.  It then encodes the text once, hashes the bytes
    once with the function the algorithm names (keccak256 when omitted),
    and returns that digest tagged with that algorithm. *)
Theorem hashString_returns_iff_accepted
  (text : string) (algorithm : value) (w : World) :
  ((exists result, resultOf (hashString text algorithm) w = Ok result)
   <-> accepted algorithm) /\
  (accepted algorithm ->
   let a := defaultParam algorithm (VString "keccak256") in
   let bytes := Uint8Array (ethers_toUtf8Bytes text) in
   hashString text algorithm w
   = (Ok (VObject [("hash", VString (digestOf a bytes)); ("algorithm", a)]),
      extend w [CallToUtf8Bytes text; digestCallOf a bytes])).
Proof.
  assert (Hrun : accepted algorithm ->
            hashString text algorithm w
            = (Ok (VObject [("hash", VString (digestOf (defaultParam algorithm (VString "keccak256"))
                                                       (Uint8Array (ethers_toUtf8Bytes text))));
                            ("algorithm", defaultParam algorithm (VString "keccak256"))]),
               extend w [CallToUtf8Bytes text;
                         digestCallOf (defaultParam algorithm (VString "keccak256"))
                                      (Uint8Array (ethers_toUtf8Bytes text))])).
  { intros Hacc.
    destruct (accepted_dispatch algorithm (Uint8Array (ethers_toUtf8Bytes text)) Hacc)
      as [_ Hd].
    cbv zeta in Hd. unfold hashString. unfold bind at 1. unfold toUtf8Bytes.
    unfold bind at 1. cbn [emit ret]. unfold bind. rewrite Hd.
    unfold extend. cbn [entropy trace]. rewrite <- app_assoc. reflexivity. }
  split; [split|exact Hrun].
  - intros [result H].
    destruct algorithm as [| | b | z | s | a | o]; try (now left); try discriminate.
    unfold resultOf, hashString, bind in H. cbn in H.
    destruct (s =? "sha256")%string eqn:Hs.
    + apply String.eqb_eq in Hs. subst. right. now left.
    + destruct (s =? "keccak256")%string eqn:Hk; [|discriminate].
      apply String.eqb_eq in Hk. subst. right. now right.
  - intros Hacc. eexists. unfold resultOf. rewrite (Hrun Hacc). reflexivity.
Qed.

(** ** The console report *)

(** X14. The console report of a successful run is framed by the input and
    the result.  For an algorithm name of characters below 128, it opens
    with the banner, the algorithm in upper case and the number of leaves,
    and its last four lines show, between two rules, the very root that
    [buildMerkleRoot] returns. *)
Theorem report_opens_with_input_and_closes_with_root
  (hashes : list string) (alg : string) (override : value) (w : World) :
  hashes <> [] -> alg <> "" -> asciiText alg = true ->
  exists root body,
    buildMerkleRoot (leafObject hashes (VString alg)) override w
    = (Ok (VString root),
       extend w
         ([ConsoleLog (nl ++ rule);
           ConsoleLog "BUILDING MERKLE TREE";
           ConsoleLog rule;
           ConsoleLog ("Algorithm: " ++ toUpperCase alg);
           ConsoleLog ("Total leaves: " ++ showZ (Z.of_nat (List.length hashes)));
           ConsoleLog (rule ++ nl);
           ConsoleLog "LEVEL 0 (Leaves):"]
          ++ body
          ++ [ConsoleLog rule;
              ConsoleLog "MERKLE ROOT (Final):";
              ConsoleLog root;
              ConsoleLog (rule ++ nl)])).
Proof.
  intros Hne Halg _.
  destruct (whileLoop_runs (VString alg) hashes 1)
    as (k & evs & Hloop & Hlen & _ & _ & _ & _).
  assert (Hpos : 1 <= List.length hashes) by (destruct hashes; [congruence | cbn; lia]).
  replace (Nat.min 1 (List.length hashes)) with 1 in Hlen by lia.
  destruct (index_singleton _ Hlen) as (root & Hfinal & Hroot).
  destruct (forEach_log_runs (fun leaf i => ("  [" ++ showNat i ++ "] " ++ leaf)%string)
              hashes 0) as (e1 & Hlog & _).
  exists root, (e1 ++ [ConsoleLog ""] ++ evs).
  rewrite buildMerkleRoot_leafObject by exact Halg.
  assert (Hrun : exists t,
             runs (buildTree (VArray hashes) (VString alg)) w (VString root) t /\
             t = [] ++ [ConsoleLog (nl ++ rule)] ++ [ConsoleLog "BUILDING MERKLE TREE"]
                 ++ [ConsoleLog rule] ++ [] ++ [ConsoleLog ("Algorithm: " ++ toUpperCase alg)]
                 ++ [ConsoleLog ("Total leaves: " ++ showZ (Z.of_nat (List.length hashes)))]
                 ++ [ConsoleLog (rule ++ nl)] ++ [ConsoleLog "LEVEL 0 (Leaves):"] ++ []
                 ++ e1 ++ [ConsoleLog ""] ++ evs
                 ++ [ConsoleLog rule] ++ [ConsoleLog "MERKLE ROOT (Final):"]
                 ++ [ConsoleLog root] ++ [ConsoleLog (rule ++ nl)] ++ []).
  { eexists. split; [|reflexivity].
    unfold buildTree. rewrite (nonempty_check hashes Hne).
    eapply runs_bind; [apply runs_ret|].
    do 3 (eapply runs_bind; [apply runs_log|]).
    eapply runs_bind; [apply runs_ret|].
    do 4 (eapply runs_bind; [apply runs_log|]).
    eapply runs_bind; [apply runs_ret|].
    eapply runs_bind; [apply Hlog|].
    eapply runs_bind; [apply runs_log|].
    eapply runs_bind; [apply Hloop|].
    cbn [fst]. rewrite Hroot. cbn [toStringValue].
    do 4 (eapply runs_bind; [apply runs_log|]).
    apply runs_ret. }
  destruct Hrun as (t & Hrun & ->). unfold runs in Hrun. rewrite Hrun.
  f_equal. f_equal. cbn [app]. rewrite <- ?app_assoc. cbn [app].
  rewrite ?app_nil_r. reflexivity.
Qed.

(** X15. [buildMerkleRoot] raises EmptyInput exactly when the leaves it
    resolves have a [length] that is [0]: the bare empty array, or an
    object that passes the test of line 89 and whose [hashes] has length
    [0].  It raises it before any output. *)
Theorem empty_input_iff (leavesInput override : value) (w : World) :
  (resultOf (buildMerkleRoot leavesInput override) w = Throw EmptyInput
   <-> (carriesLeaves leavesInput = true /\
        strictEqNumber (getProp (getProp leavesInput "hashes") "length") 0 = true) \/
       (carriesLeaves leavesInput = false /\ leavesInput = VArray [])) /\
  (resultOf (buildMerkleRoot leavesInput override) w = Throw EmptyInput ->
   buildMerkleRoot leavesInput override w = (Throw EmptyInput, w)).
Proof.
  assert (Htree : forall leaves algorithm,
             truthy leaves = true ->
             (resultOf (buildTree leaves algorithm) w = Throw EmptyInput
              -> strictEqNumber (getProp leaves "length") 0 = true) /\
             (strictEqNumber (getProp leaves "length") 0 = true
              -> buildTree leaves algorithm w = (Throw EmptyInput, w))).
  { intros leaves algorithm Ht. unfold resultOf, buildTree. rewrite Ht. cbn [negb orb].
    destruct (strictEqNumber (getProp leaves "length") 0) eqn:Hc.
    - split; reflexivity.
    - split; [|discriminate]. intros H. exfalso.
      destruct algorithm as [| | b | z | alg | a | o]; try discriminate.
      destruct leaves as [| | b | z | t | elems | o]; try discriminate.
      assert (Hne : elems <> []) by (intros ->; discriminate).
      destruct (buildTree_runs elems alg Hne) as (k & evs & Hrun & _).
      unfold buildTree in Hrun. specialize (Hrun w). unfold runs in Hrun.
      rewrite (nonempty_check elems Hne) in Hrun. rewrite Hrun in H. discriminate. }
  destruct (carriesLeaves leavesInput) eqn:Hc.
  - assert (Ht : truthy (getProp leavesInput "hashes") = true).
    { unfold carriesLeaves in Hc.
      apply andb_prop in Hc. destruct Hc as [Hc _].
      apply andb_prop in Hc. now destruct Hc. }
    destruct (Htree _ (getProp leavesInput "algorithm") Ht) as [Hfwd Hback].
    unfold resultOf in *. rewrite !buildMerkleRoot_carried by exact Hc.
    split; [split|].
    + intros H. left. split; [reflexivity | now apply Hfwd].
    + intros [[_ H] | [H _]]; [|discriminate]. now rewrite (Hback H).
    + intros H. now apply Hback, Hfwd.
  - unfold resultOf in *. rewrite !buildMerkleRoot_not_carried by exact Hc.
    destruct leavesInput as [| | b | z | t | elems | o]; cbn [isArray];
      try (split; [split; [discriminate | intros [[H _] | [_ H]]; discriminate]
                  | discriminate]).
    destruct (Htree (VArray elems) (orElse override (VString "keccak256")) eq_refl)
      as [Hfwd Hback].
    split; [split|].
    + intros H. right. split; [reflexivity|].
      apply Hfwd in H. destruct elems; [reflexivity | discriminate].
    + intros [[H _] | [_ H]]; [discriminate|]. inversion H; subst. reflexivity.
    + intros H. now apply Hback, Hfwd.
Qed.

(** ** The strict reducer and the reducer on digests *)

Lemma bind_agree {A B} (c1 c2 : M A) (k1 k2 : A -> M B) w :
  c1 w = c2 w ->
  (forall a w', c2 w = (Ok a, w') -> k1 a w' = k2 a w') ->
  (x <- c1 ;; k1 x) w = (x <- c2 ;; k2 x) w.
Proof.
  unfold bind. intros -> Hk. destruct (c2 w) as [[a|e] w']; [now apply Hk | reflexivity].
Qed.

Lemma strict_combineHashes_agree (left right : string) (algorithm : value) w :
  Strict.hexDigests -> isHexString left = true -> isHexString right = true ->
  Strict.combineHashes left right algorithm w = combineHashes left right algorithm w.
Proof.
  intros (Hsha & Hkec & Hcat) Hl Hr.
  assert (Hgen : forall first second, isHexString first = true -> isHexString second = true ->
            (console_log ("    Combining: " ++ slice0 first 10 ++ "... + "
                          ++ slice0 second 10 ++ "...") ;;
             combined <- Strict.concat [first; second] ;;
             hash <- (if algorithm === "sha256"
                      then Strict.sha256 (HexString combined)
                      else Strict.keccak256 (HexString combined)) ;;
             console_log ("    Result:    " ++ slice0 hash 10 ++ "...") ;;
             ret hash) w
            = (console_log ("    Combining: " ++ slice0 first 10 ++ "... + "
                            ++ slice0 second 10 ++ "...") ;;
               combined <- concat [first; second] ;;
               hash <- (if algorithm === "sha256"
                        then sha256 (HexString combined)
                        else keccak256 (HexString combined)) ;;
               console_log ("    Result:    " ++ slice0 hash 10 ++ "...") ;;
               ret hash) w).
  { intros first second Hf Hs.
    apply bind_agree; [reflexivity|]. intros _ w1 _.
    apply bind_agree.
    { unfold Strict.concat, concat, bind. cbn [emit forallb]. now rewrite Hf, Hs. }
    intros combined w2 Hrun.
    assert (Hcomb : isHexString combined = true).
    { unfold concat, bind in Hrun. cbn [emit ret] in Hrun. inversion Hrun; subst.
      apply Hcat. cbn [forallb]. now rewrite Hf, Hs. }
    apply bind_agree; [|reflexivity].
    destruct (algorithm === "sha256").
    - unfold Strict.sha256, sha256, bind. cbn [emit Strict.accepts]. now rewrite Hcomb.
    - unfold Strict.keccak256, keccak256, bind. cbn [emit Strict.accepts]. now rewrite Hcomb. }
  unfold Strict.combineHashes, combineHashes.
  destruct (left <? right)%string; now apply Hgen.
Qed.

Lemma combined_hex (left right : string) (algorithm : value) :
  Strict.hexDigests -> isHexString left = true -> isHexString right = true ->
  isHexString (combined left right algorithm) = true.
Proof.
  intros (Hsha & Hkec & Hcat) Hl Hr. unfold combined.
  destruct (left <? right)%string; destruct (algorithm === "sha256");
    (apply Hsha || apply Hkec); apply Hcat; cbn [forallb]; now rewrite Hl, Hr.
Qed.

Lemma paired_hex (algorithm : value) (level : list string) :
  Strict.hexDigests -> forallb isHexString level = true ->
  forallb isHexString (paired algorithm level) = true.
Proof.
  intros Hlaw. induction level as [| x | x y l IH] using pair_ind; intros Hv.
  - reflexivity.
  - exact Hv.
  - cbn [forallb] in Hv. apply andb_prop in Hv. destruct Hv as [Hx Hv].
    apply andb_prop in Hv. destruct Hv as [Hy Hv].
    cbn [paired forallb]. now rewrite (combined_hex x y algorithm Hlaw Hx Hy), IH.
Qed.

Lemma strict_forPairs_agree (algorithm : value) (rest : list string) :
  Strict.hexDigests -> forallb isHexString rest = true ->
  forall i nextLevel w,
    Strict.forPairs rest i algorithm nextLevel w = forPairs rest i algorithm nextLevel w.
Proof.
  intros Hlaw. induction rest as [| x | l r rest IH] using pair_ind;
    intros Hv i nextLevel w; try reflexivity.
  cbn [forallb] in Hv. apply andb_prop in Hv. destruct Hv as [Hl Hv].
  apply andb_prop in Hv. destruct Hv as [Hr Hv].
  cbn [Strict.forPairs forPairs].
  do 3 (apply bind_agree; [reflexivity|]; intros _ ? _).
  apply bind_agree; [now apply strict_combineHashes_agree|]. intros parentHash ? _.
  apply bind_agree; [reflexivity|]. intros _ ? _.
  now apply IH.
Qed.

Lemma strict_whileBody_agree (currentLevel : list string) levelNumber algorithm w :
  Strict.hexDigests -> forallb isHexString currentLevel = true ->
  Strict.whileBody currentLevel levelNumber algorithm w
  = whileBody currentLevel levelNumber algorithm w.
Proof.
  intros Hlaw Hv. unfold Strict.whileBody, whileBody.
  do 3 (apply bind_agree; [reflexivity|]; intros _ ? _).
  apply bind_agree; [now apply strict_forPairs_agree | reflexivity].
Qed.

Lemma strict_whileLoop_step (currentLevel : list string) levelNumber algorithm w :
  Strict.whileLoop currentLevel levelNumber algorithm w =
  if (1 <? List.length currentLevel)%nat
  then match Strict.whileBody currentLevel levelNumber algorithm w with
       | (Ok nextLevel, w') => Strict.whileLoop nextLevel (S levelNumber) algorithm w'
       | (Throw e, w') => (Throw e, w')
       end
  else (Ok (currentLevel, levelNumber), w).
Proof.
  funelim (Strict.whileLoop currentLevel levelNumber algorithm w);
    match goal with H : (1 <? _)%nat = _ |- _ => rewrite H end;
    try match goal with H : Strict.whileBody _ _ _ _ = _ |- _ => rewrite H end;
    reflexivity.
Qed.

Lemma strict_whileLoop_agree (algorithm : value) (currentLevel : list string) :
  Strict.hexDigests -> forallb isHexString currentLevel = true ->
  forall levelNumber w,
    Strict.whileLoop currentLevel levelNumber algorithm w
    = whileLoop currentLevel levelNumber algorithm w.
Proof.
  intros Hlaw.
  remember (List.length currentLevel) as n eqn:Hn.
  revert currentLevel Hn.
  induction n as [n IH] using lt_wf_ind. intros currentLevel Hn Hv levelNumber w.
  rewrite strict_whileLoop_step, whileLoop_step.
  destruct (1 <? List.length currentLevel)%nat eqn:Hgt; [|reflexivity].
  apply Nat.ltb_lt in Hgt.
  rewrite (strict_whileBody_agree _ _ _ _ Hlaw Hv).
  destruct (whileBody_runs currentLevel levelNumber algorithm) as (evs & Hrun & _).
  rewrite Hrun.
  apply (IH (List.length (paired algorithm currentLevel))).
  - rewrite paired_length, Hn. apply ceilHalf_lt. lia.
  - reflexivity.
  - now apply paired_hex.
Qed.

Lemma strict_buildTree_agree (leaves algorithm : value) w :
  Strict.hexDigests -> Strict.wellFormedLeaves leaves = true ->
  Strict.buildTree leaves algorithm w = buildTree leaves algorithm w.
Proof.
  intros Hlaw Hv. unfold Strict.buildTree, buildTree.
  apply bind_agree; [reflexivity|]. intros _ ? _.
  do 3 (apply bind_agree; [reflexivity|]; intros _ ? _).
  apply bind_agree; [reflexivity|]. intros upper ? _.
  do 4 (apply bind_agree; [reflexivity|]; intros _ ? _).
  apply bind_agree; [reflexivity|]. intros elems ? Helems.
  assert (Hvalid : forallb isHexString elems = true).
  { destruct leaves; try discriminate. cbn in Helems. inversion Helems; subst. exact Hv. }
  apply bind_agree; [reflexivity|]. intros _ ? _.
  apply bind_agree; [reflexivity|]. intros _ ? _.
  apply bind_agree; [now apply strict_whileLoop_agree | reflexivity].
Qed.

Lemma strict_buildMerkleRoot_agree (leavesInput override : value) w :
  Strict.hexDigests -> Strict.wellFormedInput leavesInput = true ->
  Strict.buildMerkleRoot leavesInput override w = buildMerkleRoot leavesInput override w.
Proof.
  intros Hlaw Hv. unfold Strict.wellFormedInput in Hv.
  apply andb_prop in Hv. destruct Hv as [Hin Hhashes].
  unfold Strict.buildMerkleRoot, buildMerkleRoot.
  apply bind_agree; [reflexivity|]. intros input w' Hres.
  apply strict_buildTree_agree; [exact Hlaw|].
  unfold resolveInput in Hres.
  destruct (_ && _)%bool.
  - inversion Hres; subst. exact Hhashes.
  - destruct (isArray leavesInput); [|discriminate].
    inversion Hres; subst. exact Hin.
Qed.

Lemma strict_buildMerkleRoot_carried (leavesInput override : value) w :
  carriesLeaves leavesInput = true ->
  Strict.buildMerkleRoot leavesInput override w
  = Strict.buildTree (getProp leavesInput "hashes") (getProp leavesInput "algorithm") w.
Proof.
  intros H. unfold carriesLeaves in H.
  unfold Strict.buildMerkleRoot, resolveInput. now rewrite H.
Qed.

Lemma strict_buildMerkleRoot_not_carried (leavesInput override : value) w :
  carriesLeaves leavesInput = false ->
  Strict.buildMerkleRoot leavesInput override w
  = if isArray leavesInput
    then Strict.buildTree leavesInput (orElse override (VString "keccak256")) w
    else (Throw InvalidInput, w).
Proof.
  intros H. unfold carriesLeaves in H.
  unfold Strict.buildMerkleRoot, resolveInput. rewrite H.
  now destruct (isArray leavesInput).
Qed.

Lemma strict_buildTree_ok_inv (leaves algorithm : value) (root : value) w :
  resultOf (Strict.buildTree leaves algorithm) w = Ok root ->
  exists elems alg, leaves = VArray elems /\ elems <> [] /\ algorithm = VString alg.
Proof.
  unfold resultOf, Strict.buildTree. intros H.
  destruct (negb (truthy leaves) || strictEqNumber (getProp leaves "length") 0)%bool eqn:Hc.
  { discriminate. }
  destruct algorithm as [| | b | z | alg | a | o]; try discriminate.
  destruct leaves as [| | b | z | t | elems | o]; try discriminate.
  exists elems, alg. repeat split. intros ->. discriminate.
Qed.

(** C8, as the code has it.  An empty leaf sequence, handed over as a Leaf
    Set or as a bare array, makes [buildMerkleRoot] raise the EmptyInput
    error at once.  When every hash handed over is a well-formed hex
    string, every failure of [buildMerkleRoot] comes before any combination
    work: the exception is InvalidInput, EmptyInput or a TypeError of the
    language, and all the run has done is console output.  Here ethers
    checks its arguments, so the statement leaves out the hashes on which
    it throws. *)
Theorem empty_input_and_failure_before_combining
  (leavesInput override algorithm : value) (w w' : World) (e : exception) :
  Strict.hexDigests -> truthy algorithm = true ->
  Strict.wellFormedInput leavesInput = true ->
  Strict.buildMerkleRoot leavesInput override w = (Throw e, w') ->
  Strict.buildMerkleRoot (leafObject [] algorithm) override w = (Throw EmptyInput, w) /\
  Strict.buildMerkleRoot (VArray []) override w = (Throw EmptyInput, w) /\
  buildError e /\
  exists evs, w' = extend w evs /\ onlyLogs evs /\
              combineCalls evs = 0 /\ digestCalls evs = 0.
Proof.
  intros Hlaw Halg Hv Hfail. split; [|split].
  - rewrite strict_buildMerkleRoot_carried
      by (now rewrite carriesLeaves_leafObject).
    reflexivity.
  - reflexivity.
  - rewrite (strict_buildMerkleRoot_agree _ _ _ Hlaw Hv) in Hfail.
    apply buildMerkleRoot_failsOnly in Hfail.
    destruct Hfail as (He & evs & Hw & Hlogs).
    split; [exact He|].
    exists evs. repeat split; try assumption; now apply onlyLogs_calls.
Qed.

(** X9. [buildMerkleRoot] returns only when it is handed a non-empty array
    of hashes together with an algorithm that is a string: either an
    object that passes the test of line 89, whose [hashes] is that array
    and whose [algorithm] is that string, or the bare array, with a string
    for override or an override that is falsy.  Conversely, when in
    addition every hash of the array is a well-formed hex string, it does
    return, and what it returns is a string.  Here ethers checks its
    arguments. *)
Theorem returns_only_on_nonempty_array_and_string_algorithm
  (leavesInput override : value) (w : World) :
  ((exists root, resultOf (Strict.buildMerkleRoot leavesInput override) w = Ok root)
   -> exists elems alg,
        elems <> [] /\
        ((carriesLeaves leavesInput = true /\
          getProp leavesInput "hashes" = VArray elems /\
          getProp leavesInput "algorithm" = VString alg) \/
         (carriesLeaves leavesInput = false /\
          leavesInput = VArray elems /\
          orElse override (VString "keccak256") = VString alg))) /\
  (Strict.hexDigests -> Strict.wellFormedInput leavesInput = true ->
   (exists elems alg,
        elems <> [] /\
        ((carriesLeaves leavesInput = true /\
          getProp leavesInput "hashes" = VArray elems /\
          getProp leavesInput "algorithm" = VString alg) \/
         (carriesLeaves leavesInput = false /\
          leavesInput = VArray elems /\
          orElse override (VString "keccak256") = VString alg)))
   -> exists d, resultOf (Strict.buildMerkleRoot leavesInput override) w
                = Ok (VString d)).
Proof.
  split.
  - intros [root H]. unfold resultOf in H.
    destruct (carriesLeaves leavesInput) eqn:Hc.
    + rewrite strict_buildMerkleRoot_carried in H by exact Hc.
      apply strict_buildTree_ok_inv in H. destruct H as (elems & alg & Hl & Hne & Ha).
      exists elems, alg. split; [exact Hne|]. left. now repeat split.
    + rewrite strict_buildMerkleRoot_not_carried in H by exact Hc.
      destruct (isArray leavesInput); [|discriminate].
      apply strict_buildTree_ok_inv in H. destruct H as (elems & alg & Hl & Hne & Ha).
      exists elems, alg. split; [exact Hne|]. right. now repeat split.
  - intros Hlaw Hv (elems & alg & Hne & Hshape).
    destruct (buildTree_runs elems alg Hne) as (k & evs & Hrun & Hlen & _).
    destruct (index_singleton _ Hlen) as (d & _ & Hroot).
    exists d. unfold resultOf.
    rewrite (strict_buildMerkleRoot_agree _ _ _ Hlaw Hv).
    destruct Hshape as [(Hc & Hh & Ha) | (Hc & Hi & Ha)].
    + rewrite buildMerkleRoot_carried, Hh, Ha by exact Hc. now rewrite Hrun, Hroot.
    + rewrite buildMerkleRoot_not_carried by exact Hc.
      subst leavesInput. cbn [isArray]. rewrite Ha. now rewrite Hrun, Hroot.
Qed.

(** ** The last level of two nodes *)

Lemma whileLoop_prefix (algorithm : value) (j : nat) :
  forall currentLevel levelNumber,
    j <= Nat.log2_up (List.length currentLevel) ->
    exists evs, forall w,
      whileLoop currentLevel levelNumber algorithm w
      = whileLoop (Nat.iter j (paired algorithm) currentLevel) (levelNumber + j)
                  algorithm (extend w evs).
Proof.
  induction j as [|j IH]; intros currentLevel levelNumber Hj.
  - exists []. intros w. now rewrite extend_nil, Nat.add_0_r.
  - assert (Hlen : 2 <= List.length currentLevel).
    { destruct currentLevel as [|x [|y l]]; cbn in Hj; try lia. cbn. lia. }
    destruct (whileLoop_more currentLevel levelNumber algorithm ltac:(lia))
      as (e1 & Hmore & _).
    destruct (IH (paired algorithm currentLevel) (S levelNumber)) as (e2 & Hrest).
    { rewrite paired_length. rewrite (log2_up_ceilHalf _ Hlen) in Hj. lia. }
    exists (e1 ++ e2). intros w.
    rewrite Hmore, Hrest, extend_extend, Nat.iter_succ_r.
    now replace (levelNumber + S j) with (S levelNumber + j) by lia.
Qed.

(** X5. With two or more leaves the root is an output of [combineHashes] on
    the last level of two nodes.  The loop, started on the leaves at level
    number 1, comes to a level of exactly two digests [x] and [y] at level
    number [log2_up n], and the root that [buildMerkleRoot] returns is what
    [combineHashes] returns on [x] and [y]. *)
Theorem root_is_a_combination
  (hashes : list string) (alg : string) (override : value) (w : World) :
  2 <= List.length hashes -> alg <> "" ->
  exists x y evs,
    whileLoop hashes 1 (VString alg) w
    = whileLoop [x; y] (Nat.log2_up (List.length hashes)) (VString alg) (extend w evs) /\
    forall w0 w1,
      resultOf (buildMerkleRoot (leafObject hashes (VString alg)) override) w0
      = resultOf (r <- combineHashes x y (VString alg) ;; ret (VString r)) w1.
Proof.
  intros Hlen Halg.
  assert (Hk : 0 < Nat.log2_up (List.length hashes)) by (apply Nat.log2_up_pos; lia).
  destruct (Nat.log2_up (List.length hashes)) as [|k] eqn:Hlog; [lia|].
  assert (Hprev := iter_paired_log (VString alg) k hashes ltac:(lia)).
  rewrite Hlog in Hprev. replace (S k - k) with 1 in Hprev by lia.
  apply log2_up_eq_1 in Hprev.
  destruct (whileLoop_prefix (VString alg) k hashes 1 ltac:(lia)) as (evs & Hloop).
  destruct (Nat.iter k (paired (VString alg)) hashes) as [|x [|y [|? ?]]] eqn:Hit;
    try discriminate.
  exists x, y, evs. split; [apply Hloop|].
  intros w0 w1.
  rewrite reduced_root; [|intros ->; cbn in Hlen; lia | exact Halg].
  unfold reduced. rewrite Hlog, Nat.iter_succ, Hit.
  unfold resultOf, bind. now rewrite combineHashes_runs.
Qed.

End Properties.

(** ** The theorems at concrete inputs, on the [Tagged] instance *)

#[local] Existing Instance Tagged.ethers.

(** The [Tagged] instance returns hex strings on hex strings. *)

Lemma substring_full (r : string) : substring 0 (String.length r) r = r.
Proof. induction r as [|c r IH]; [reflexivity|]. cbn. now rewrite IH. Qed.

Lemma hexPairs_app (a b : string) :
  hexPairs a = true -> hexPairs b = true -> hexPairs (a ++ b) = true.
Proof.
  remember (String.length a) as n eqn:Hn. revert a Hn.
  induction n as [n IH] using lt_wf_ind. intros a Hn Ha Hb.
  destruct a as [|c1 [|c2 rest]]; [exact Hb | discriminate |].
  cbn [hexPairs append] in *.
  apply andb_prop in Ha. destruct Ha as [Hc Hrest]. rewrite Hc. cbn [andb].
  apply (IH (String.length rest)); [cbn in Hn; lia | reflexivity | exact Hrest | exact Hb].
Qed.

Lemma payload_hex (s : string) :
  isHexString s = true -> hexPairs (Tagged.payload (HexString s)) = true.
Proof.
  destruct s as [|c0 [|cx rest]]; try discriminate.
  intros H. cbn [isHexString] in H. apply andb_prop in H. destruct H as [_ H].
  unfold Tagged.payload.
  replace (String.length (String c0 (String cx rest)) - 2) with (String.length rest)
    by (cbn; lia).
  cbn [substring]. now rewrite substring_full.
Qed.

Lemma concat_hex (datas : list string) :
  forallb isHexString datas = true ->
  hexPairs (String.concat "" (map (fun d => Tagged.payload (HexString d)) datas)) = true.
Proof.
  induction datas as [|d datas IH]; intros H; [reflexivity|].
  cbn [forallb] in H. apply andb_prop in H. destruct H as [Hd Hrest].
  specialize (IH Hrest). cbn [map String.concat].
  destruct (map (fun d0 => Tagged.payload (HexString d0)) datas) eqn:Hm.
  - now apply payload_hex.
  - cbn [append]. apply hexPairs_app; [now apply payload_hex | exact IH].
Qed.

Lemma Tagged_hexDigests : Strict.hexDigests (E := Tagged.ethers).
Proof.
  split; [|split].
  - intros s Hs. cbn. now apply payload_hex.
  - intros s Hs. cbn. now apply payload_hex.
  - intros datas Hd. cbn. now apply concat_hex.
Qed.

Lemma single_leaf_is_root_witness :
  "sha256" <> "" /\
  exists evs,
    buildMerkleRoot (E := Tagged.ethers) (leafObject ["0xaa"] (VString "sha256"))
                    VUndefined Tagged.world0
      = (Ok (VString "0xaa"), extend Tagged.world0 evs) /\
    combineCalls evs = 0 /\ digestCalls evs = 0.
Proof.
  split; [discriminate|].
  apply (single_leaf_is_root (E := Tagged.ethers)). discriminate.
Defined.

Lemma buildMerkleRoot_deterministic_witness :
  ["0xaa"; "0xbb"; "0xcc"] <> [] /\ "sha256" <> "" /\
  resultOf (buildMerkleRoot (E := Tagged.ethers) (VArray ["0xaa"; "0xbb"]) VUndefined)
           Tagged.world0
    = resultOf (buildMerkleRoot (E := Tagged.ethers) (VArray ["0xaa"; "0xbb"]) VUndefined)
               (extend Tagged.world0 [ConsoleLog "earlier output"]) /\
  exists root,
    resultOf (buildMerkleRoot (E := Tagged.ethers)
                (leafObject ["0xaa"; "0xbb"; "0xcc"] (VString "sha256")) VUndefined)
             Tagged.world0 = Ok (VString root) /\
    resultOf (buildMerkleRoot (E := Tagged.ethers)
                (leafObject ["0xaa"; "0xbb"; "0xcc"] (VString "sha256")) VNull)
             (extend Tagged.world0 [ConsoleLog "earlier output"]) = Ok (VString root).
Proof.
  split; [discriminate|]. split; [discriminate|].
  apply (buildMerkleRoot_deterministic (E := Tagged.ethers)); discriminate.
Defined.

Lemma whileLoop_terminates_witness :
  ["0xaa"; "0xbb"; "0xcc"] <> [] /\
  (forall level n w0, 2 <= List.length level ->
     exists nextLevel evs,
       whileBody (E := Tagged.ethers) level n (VString "sha256") w0
         = (Ok nextLevel, extend w0 evs) /\
       List.length nextLevel = ceilHalf (List.length level) /\
       List.length nextLevel < List.length level) /\
  exists k final evs,
    whileLoop (E := Tagged.ethers) ["0xaa"; "0xbb"; "0xcc"] 1 (VString "sha256")
              Tagged.world0
      = (Ok (final, 1 + k), extend Tagged.world0 evs) /\
    List.length final = 1 /\
    k = Nat.log2_up (List.length ["0xaa"; "0xbb"; "0xcc"]) /\
    k < List.length ["0xaa"; "0xbb"; "0xcc"].
Proof.
  split; [discriminate|].
  apply (whileLoop_terminates (E := Tagged.ethers)). discriminate.
Defined.

Lemma odd_node_promoted_unchanged_witness :
  Nat.odd (List.length ["0xaa"; "0xbb"; "0xcc"]) = true /\ "sha256" <> "" /\
  (exists front d nextFront evs,
     ["0xaa"; "0xbb"; "0xcc"] = front ++ [d] /\
     whileBody (E := Tagged.ethers) ["0xaa"; "0xbb"; "0xcc"] 1 (VString "sha256")
               Tagged.world0
       = (Ok (nextFront ++ [d]), extend Tagged.world0 evs) /\
     (forall w1, resultOf (forPairs front 0 (VString "sha256") []) w1 = Ok nextFront) /\
     combineCalls evs = List.length nextFront /\
     digestCalls evs = List.length nextFront) /\
  (forall w1,
     resultOf (buildMerkleRoot (E := Tagged.ethers)
                 (leafObject ["0xaa"; "0xbb"; "0xcc"] (VString "sha256")) VUndefined)
              Tagged.world0
     = resultOf (bind (combineHashes "0xaa" "0xbb" (VString "sha256")) (fun ab =>
                 bind (combineHashes ab "0xcc" (VString "sha256")) (fun abc =>
                 ret (VString abc)))) w1).
Proof.
  split; [reflexivity|]. split; [discriminate|].
  apply (odd_node_promoted_unchanged (E := Tagged.ethers));
    [reflexivity | discriminate].
Defined.

Lemma pairs_combined_in_order_witness :
  nth_error ["0xaa"; "0xbb"; "0xcc"; "0xdd"] (2 * 1) = Some "0xcc" /\
  nth_error ["0xaa"; "0xbb"; "0xcc"; "0xdd"] (2 * 1 + 1) = Some "0xdd" /\
  "keccak256" <> "" /\
  (exists nextLevel evs parent,
     whileBody (E := Tagged.ethers) ["0xaa"; "0xbb"; "0xcc"; "0xdd"] 1
               (VString "keccak256") Tagged.world0
       = (Ok nextLevel, extend Tagged.world0 evs) /\
     (forall w1, resultOf (combineHashes "0xcc" "0xdd" (VString "keccak256")) w1
                 = Ok parent) /\
     nth_error nextLevel 1 = Some parent /\
     List.length nextLevel = ceilHalf (List.length ["0xaa"; "0xbb"; "0xcc"; "0xdd"])) /\
  (forall w1,
     resultOf (buildMerkleRoot (E := Tagged.ethers)
                 (leafObject ["0xaa"; "0xbb"] (VString "keccak256")) VUndefined)
              Tagged.world0
     = resultOf (bind (combineHashes "0xaa" "0xbb" (VString "keccak256")) (fun ab =>
                 ret (VString ab))) w1) /\
  (forall w1,
     resultOf (buildMerkleRoot (E := Tagged.ethers)
                 (leafObject ["0xaa"; "0xbb"; "0xcc"; "0xdd"] (VString "keccak256"))
                 VUndefined)
              Tagged.world0
     = resultOf (bind (combineHashes "0xaa" "0xbb" (VString "keccak256")) (fun l =>
                 bind (combineHashes "0xcc" "0xdd" (VString "keccak256")) (fun r =>
                 bind (combineHashes l r (VString "keccak256")) (fun root =>
                 ret (VString root))))) w1).
Proof.
  split; [reflexivity|]. split; [reflexivity|]. split; [discriminate|].
  apply (pairs_combined_in_order (E := Tagged.ethers));
    [reflexivity | reflexivity | discriminate].
Defined.

Lemma generateRandomHashes_count_witness :
  supported "sha256" /\
  (exists hashes w',
     generateRandomHashes (E := Tagged.ethers) 2 (VString "sha256") Tagged.world0
       = (Ok (leafObject hashes (VString "sha256")), w') /\
     Z.of_nat (List.length hashes) = 2%Z) /\
  generateRandomHashes (E := Tagged.ethers) 0 VUndefined Tagged.world0
    = (Ok (leafObject [] (VString "keccak256")), Tagged.world0).
Proof.
  split; [now left|]. split.
  - apply (proj1 (generateRandomHashes_count (E := Tagged.ethers)
                    2 "sha256" VUndefined Tagged.world0 (or_introl eq_refl))).
    lia.
  - apply (proj2 (generateRandomHashes_count (E := Tagged.ethers)
                    0 "sha256" VUndefined Tagged.world0 (or_introl eq_refl))).
    lia.
Defined.


Lemma bare_array_defaults_to_keccak256_witness :
  ["0xaa"; "0xbb"] <> [] /\
  buildMerkleRoot (E := Tagged.ethers) (VArray ["0xaa"; "0xbb"]) VUndefined Tagged.world0
    = buildMerkleRoot (VArray ["0xaa"; "0xbb"]) (VString "keccak256") Tagged.world0 /\
  buildMerkleRoot (E := Tagged.ethers) (VArray ["0xaa"; "0xbb"]) VUndefined Tagged.world0
    = buildMerkleRoot (leafObject ["0xaa"; "0xbb"] (VString "keccak256")) VNull
                      Tagged.world0 /\
  (exists root,
     resultOf (buildMerkleRoot (E := Tagged.ethers) (VArray ["0xaa"; "0xbb"]) VUndefined)
              Tagged.world0 = Ok (VString root)) /\
  buildMerkleRoot (E := Tagged.ethers) (VArray []) VUndefined Tagged.world0
    = (Throw EmptyInput, Tagged.world0).
Proof.
  split; [discriminate|].
  apply (bare_array_defaults_to_keccak256 (E := Tagged.ethers)). discriminate.
Defined.

(** ** Where the code departs from the specification *)


(** C2 fails: a bare array with no override is accepted, and its root is
    computed with keccak256. *)
Lemma bare_array_counterexample :
  resultOf (buildMerkleRoot (E := Tagged.ethers) (VArray ["0xaa"; "0xbb"]) VUndefined)
           Tagged.world0
    = Ok (VString "0x02aabb") /\
  digestCalls (trace (snd (buildMerkleRoot (E := Tagged.ethers)
                             (VArray ["0xaa"; "0xbb"]) VUndefined Tagged.world0)))
    = 1.
Proof.
  split; vm_compute; reflexivity.
Qed.

(** C3 fails for [count < 1]: zero or a negative count gives an empty Leaf
    Set, not an exception. *)
Lemma nonpositive_count_counterexample :
  generateRandomHashes (E := Tagged.ethers) 0 (VString "sha256") Tagged.world0
    = (Ok (leafObject [] (VString "sha256")), Tagged.world0) /\
  generateRandomHashes (E := Tagged.ethers) (-3) (VString "sha256") Tagged.world0
    = (Ok (leafObject [] (VString "sha256")), Tagged.world0).
Proof. split; reflexivity. Qed.

(** ** The further theorems at concrete inputs *)

Lemma tree_costs_leaves_minus_one_witness :
  ["0xaa"; "0xbb"; "0xcc"] <> [] /\ "sha256" <> "" /\
  exists root evs,
    buildMerkleRoot (E := Tagged.ethers)
      (leafObject ["0xaa"; "0xbb"; "0xcc"] (VString "sha256")) VUndefined Tagged.world0
      = (Ok (VString root), extend Tagged.world0 evs) /\
    combineCalls evs = List.length ["0xaa"; "0xbb"; "0xcc"] - 1 /\
    digestCalls evs = List.length ["0xaa"; "0xbb"; "0xcc"] - 1 /\
    (if ("sha256" =? "sha256")%string
     then sha256Calls evs = List.length ["0xaa"; "0xbb"; "0xcc"] - 1
          /\ keccak256Calls evs = 0
     else keccak256Calls evs = List.length ["0xaa"; "0xbb"; "0xcc"] - 1
          /\ sha256Calls evs = 0) /\
    randomCalls evs = 0 /\ utf8Calls evs = 0.
Proof.
  split; [discriminate|]. split; [discriminate|].
  apply (tree_costs_leaves_minus_one (E := Tagged.ethers)); discriminate.
Defined.

Lemma one_hash_function_per_run_witness :
  buildMerkleRoot (E := Tagged.ethers)
    (leafObject ["0xaa"; "0xbb"; "0xcc"] (VString "md5")) VUndefined Tagged.world0
  = (Ok (VString "0x0202aabbcc"),
     snd (buildMerkleRoot (E := Tagged.ethers)
            (leafObject ["0xaa"; "0xbb"; "0xcc"] (VString "md5")) VUndefined
            Tagged.world0)) /\
  exists evs,
    snd (buildMerkleRoot (E := Tagged.ethers)
           (leafObject ["0xaa"; "0xbb"; "0xcc"] (VString "md5")) VUndefined
           Tagged.world0)
      = extend Tagged.world0 evs /\
    entropy (snd (buildMerkleRoot (E := Tagged.ethers)
                    (leafObject ["0xaa"; "0xbb"; "0xcc"] (VString "md5")) VUndefined
                    Tagged.world0))
      = entropy Tagged.world0 /\
    (sha256Calls evs = 0 \/ keccak256Calls evs = 0) /\
    randomCalls evs = 0 /\ utf8Calls evs = 0.
Proof.
  assert (Hrun : buildMerkleRoot (E := Tagged.ethers)
                   (leafObject ["0xaa"; "0xbb"; "0xcc"] (VString "md5")) VUndefined
                   Tagged.world0
                 = (Ok (VString "0x0202aabbcc"),
                    snd (buildMerkleRoot (E := Tagged.ethers)
                           (leafObject ["0xaa"; "0xbb"; "0xcc"] (VString "md5")) VUndefined
                           Tagged.world0)))
    by (vm_compute; reflexivity).
  split; [exact Hrun|].
  exact (one_hash_function_per_run (E := Tagged.ethers) _ _ _ _ _ Hrun).
Defined.

Lemma root_of_next_level_witness :
  2 <= List.length ["0xaa"; "0xbb"; "0xcc"] /\ "sha256" <> "" /\
  whileBody (E := Tagged.ethers) ["0xaa"; "0xbb"; "0xcc"] 1 (VString "sha256")
            Tagged.world0
    = (Ok ["0x01aabb"; "0xcc"],
       snd (whileBody (E := Tagged.ethers) ["0xaa"; "0xbb"; "0xcc"] 1
                      (VString "sha256") Tagged.world0)) /\
  resultOf (buildMerkleRoot (E := Tagged.ethers)
              (leafObject ["0xaa"; "0xbb"; "0xcc"] (VString "sha256")) VUndefined)
           Tagged.world0
  = resultOf (buildMerkleRoot (E := Tagged.ethers)
                (leafObject ["0x01aabb"; "0xcc"] (VString "sha256")) VUndefined)
             Tagged.world0.
Proof.
  assert (Hbody : whileBody (E := Tagged.ethers) ["0xaa"; "0xbb"; "0xcc"] 1
                            (VString "sha256") Tagged.world0
                  = (Ok ["0x01aabb"; "0xcc"],
                     snd (whileBody (E := Tagged.ethers) ["0xaa"; "0xbb"; "0xcc"] 1
                                    (VString "sha256") Tagged.world0)))
    by (vm_compute; reflexivity).
  split; [cbn; lia|]. split; [discriminate|]. split; [exact Hbody|].
  apply (root_of_next_level (E := Tagged.ethers)
           ["0xaa"; "0xbb"; "0xcc"] ["0x01aabb"; "0xcc"] 1 "sha256" VUndefined
           Tagged.world0 Tagged.world0
           (snd (whileBody (E := Tagged.ethers) ["0xaa"; "0xbb"; "0xcc"] 1
                           (VString "sha256") Tagged.world0)));
    [cbn; lia | discriminate | exact Hbody].
Defined.

Lemma sibling_order_irrelevant_witness :
  siblingSwap ["0xaa"; "0xbb"; "0xcc"; "0xdd"; "0xee"]
              ["0xbb"; "0xaa"; "0xcc"; "0xdd"; "0xee"] /\
  "keccak256" <> "" /\
  resultOf (buildMerkleRoot (E := Tagged.ethers)
              (leafObject ["0xaa"; "0xbb"; "0xcc"; "0xdd"; "0xee"] (VString "keccak256"))
              VUndefined) Tagged.world0
  = resultOf (buildMerkleRoot (E := Tagged.ethers)
                (leafObject ["0xbb"; "0xaa"; "0xcc"; "0xdd"; "0xee"] (VString "keccak256"))
                VUndefined) Tagged.world0.
Proof.
  assert (Hswap : siblingSwap ["0xaa"; "0xbb"; "0xcc"; "0xdd"; "0xee"]
                              ["0xbb"; "0xaa"; "0xcc"; "0xdd"; "0xee"])
    by (apply swap_flip, swap_keep, swap_single).
  split; [exact Hswap|]. split; [discriminate|].
  apply (sibling_order_irrelevant (E := Tagged.ethers)); [exact Hswap | discriminate].
Defined.

Lemma root_splits_at_power_of_two_witness :
  List.length ["0xaa"; "0xbb"] = 2 ^ 1 /\ 1 <= List.length ["0xcc"] /\
  List.length ["0xcc"] <= 2 ^ 1 /\ "sha256" <> "" /\
  exists r1 r2,
    resultOf (buildMerkleRoot (E := Tagged.ethers)
                (leafObject ["0xaa"; "0xbb"] (VString "sha256")) VUndefined)
             Tagged.world0 = Ok (VString r1) /\
    resultOf (buildMerkleRoot (E := Tagged.ethers)
                (leafObject ["0xcc"] (VString "sha256")) VUndefined)
             Tagged.world0 = Ok (VString r2) /\
    forall w1,
      resultOf (buildMerkleRoot (E := Tagged.ethers)
                  (leafObject (["0xaa"; "0xbb"] ++ ["0xcc"]) (VString "sha256"))
                  VUndefined) Tagged.world0
      = resultOf (bind (combineHashes r1 r2 (VString "sha256"))
                       (fun r => ret (VString r))) w1.
Proof.
  split; [reflexivity|]. split; [cbn; lia|]. split; [cbn; lia|]. split; [discriminate|].
  apply (root_splits_at_power_of_two (E := Tagged.ethers) 1);
    [reflexivity | cbn; lia | cbn; lia | discriminate].
Defined.

Lemma only_hashes_and_algorithm_count_witness :
  lookup "hashes" [("note", VString "x"); ("hashes", VArray ["0xaa"; "0xbb"]);
                   ("algorithm", VString "sha256")] = VArray ["0xaa"; "0xbb"] /\
  lookup "algorithm" [("note", VString "x"); ("hashes", VArray ["0xaa"; "0xbb"]);
                      ("algorithm", VString "sha256")] = VString "sha256" /\
  truthy (VString "sha256") = true /\
  buildMerkleRoot (E := Tagged.ethers)
    (VObject [("note", VString "x"); ("hashes", VArray ["0xaa"; "0xbb"]);
              ("algorithm", VString "sha256")]) (VString "keccak256") Tagged.world0
  = buildMerkleRoot (leafObject ["0xaa"; "0xbb"] (VString "sha256")) VUndefined
                    Tagged.world0.
Proof.
  split; [reflexivity|]. split; [reflexivity|]. split; [reflexivity|].
  apply (only_hashes_and_algorithm_count (E := Tagged.ethers)); reflexivity.
Defined.

Lemma invalid_input_iff_witness :
  carriesLeaves (leafObject ["0xaa"] (VString "")) = false /\
  isArray (leafObject ["0xaa"] (VString "")) = false /\
  buildMerkleRoot (E := Tagged.ethers) (leafObject ["0xaa"] (VString "")) VUndefined
                  Tagged.world0
  = (Throw InvalidInput, Tagged.world0).
Proof.
  split; [reflexivity|]. split; [reflexivity|].
  destruct (invalid_input_iff (E := Tagged.ethers)
              (leafObject ["0xaa"] (VString "")) VUndefined Tagged.world0)
    as [[_ Hback] Hrun].
  apply Hrun, Hback. split; reflexivity.
Defined.

Lemma non_string_algorithm_is_a_type_error_witness :
  ["0xaa"; "0xbb"] <> [] /\ truthy (VNumber 5) = true /\
  (forall s, VNumber 5 <> VString s) /\
  buildMerkleRoot (E := Tagged.ethers) (leafObject ["0xaa"; "0xbb"] (VNumber 5))
                  VUndefined Tagged.world0
    = (Throw TypeError,
       extend Tagged.world0
         [ConsoleLog (nl ++ rule); ConsoleLog "BUILDING MERKLE TREE"; ConsoleLog rule]) /\
  buildMerkleRoot (E := Tagged.ethers) (VArray ["0xaa"; "0xbb"]) (VNumber 5)
                  Tagged.world0
    = (Throw TypeError,
       extend Tagged.world0
         [ConsoleLog (nl ++ rule); ConsoleLog "BUILDING MERKLE TREE"; ConsoleLog rule]).
Proof.
  split; [discriminate|]. split; [reflexivity|]. split; [discriminate|].
  apply (non_string_algorithm_is_a_type_error (E := Tagged.ethers));
    [discriminate | reflexivity | discriminate].
Defined.

Lemma generateRandomHashes_hashes_the_draws_witness :
  accepted VUndefined /\
  generateRandomHashes (E := Tagged.ethers) 2 VUndefined Tagged.world0
  = (Ok (leafObject
           (map (fun block => digestOf (VString "keccak256") (Uint8Array block))
                (fst (draw 2 (entropy Tagged.world0))))
           (VString "keccak256")),
     mkWorld (E := Tagged.ethers) (snd (draw 2 (entropy Tagged.world0)))
             (trace Tagged.world0
              ++ flat_map (fun block => [CallRandomBytes 32;
                                         digestCallOf (VString "keccak256")
                                                      (Uint8Array block)])
                          (fst (draw 2 (entropy Tagged.world0))))) /\
  List.length (fst (draw 2 (entropy Tagged.world0))) = 2.
Proof.
  split; [now left|].
  apply (generateRandomHashes_hashes_the_draws (E := Tagged.ethers) 2 VUndefined
           Tagged.world0).
  now left.
Defined.

Lemma generated_leaves_build_a_root_witness :
  accepted (VString "sha256") /\ (1 <= 3)%Z /\
  exists leaves w1 root w2 evs,
    generateRandomHashes (E := Tagged.ethers) 3 (VString "sha256") Tagged.world0
      = (Ok leaves, w1) /\
    buildMerkleRoot leaves VUndefined w1 = (Ok (VString root), w2) /\
    trace w2 = trace Tagged.world0 ++ evs /\
    randomCalls evs = Z.to_nat 3 /\
    combineCalls evs = Z.to_nat 3 - 1 /\
    digestCalls evs = 2 * Z.to_nat 3 - 1 /\
    (sha256Calls evs = 0 \/ keccak256Calls evs = 0).
Proof.
  assert (Hacc : accepted (VString "sha256")) by (right; now left).
  split; [exact Hacc|]. split; [lia|].
  apply (generated_leaves_build_a_root (E := Tagged.ethers)); [exact Hacc | lia].
Defined.

Lemma hashString_returns_iff_accepted_witness :
  accepted (VString "sha256") /\
  hashString (E := Tagged.ethers) "tx1" (VString "sha256") Tagged.world0
  = (Ok (VObject [("hash", VString "0x01747831"); ("algorithm", VString "sha256")]),
     extend Tagged.world0
       [CallToUtf8Bytes "tx1";
        CallSha256 (Uint8Array [Byte.x74; Byte.x78; Byte.x31])]).
Proof.
  assert (Hacc : accepted (VString "sha256")) by (right; now left).
  split; [exact Hacc|].
  exact (proj2 (hashString_returns_iff_accepted (E := Tagged.ethers)
                  "tx1" (VString "sha256") Tagged.world0) Hacc).
Defined.


Lemma empty_input_iff_witness :
  carriesLeaves (VObject [("hashes", VObject [("length", VNumber 0)]);
                          ("algorithm", VString "sha256")]) = true /\
  strictEqNumber
    (getProp (getProp (VObject [("hashes", VObject [("length", VNumber 0)]);
                                ("algorithm", VString "sha256")]) "hashes") "length")
    0 = true /\
  buildMerkleRoot (E := Tagged.ethers)
    (VObject [("hashes", VObject [("length", VNumber 0)]);
              ("algorithm", VString "sha256")]) VUndefined Tagged.world0
  = (Throw EmptyInput, Tagged.world0).
Proof.
  split; [reflexivity|]. split; [reflexivity|].
  destruct (empty_input_iff (E := Tagged.ethers)
              (VObject [("hashes", VObject [("length", VNumber 0)]);
                        ("algorithm", VString "sha256")]) VUndefined Tagged.world0)
    as [[_ Hback] Hrun].
  apply Hrun, Hback. left. split; reflexivity.
Defined.

Lemma empty_input_and_failure_before_combining_witness :
  Strict.hexDigests (E := Tagged.ethers) /\
  truthy (VString "sha256") = true /\
  Strict.wellFormedInput (leafObject ["0xaa"; "0xbb"] (VNumber 5)) = true /\
  Strict.buildMerkleRoot (E := Tagged.ethers) (leafObject ["0xaa"; "0xbb"] (VNumber 5))
                         VUndefined Tagged.world0
    = (Throw TypeError,
       extend Tagged.world0
         [ConsoleLog (nl ++ rule); ConsoleLog "BUILDING MERKLE TREE"; ConsoleLog rule]) /\
  Strict.buildMerkleRoot (E := Tagged.ethers) (leafObject [] (VString "sha256"))
                         VUndefined Tagged.world0
    = (Throw EmptyInput, Tagged.world0) /\
  Strict.buildMerkleRoot (E := Tagged.ethers) (VArray []) VUndefined Tagged.world0
    = (Throw EmptyInput, Tagged.world0) /\
  buildError TypeError /\
  exists evs,
    extend Tagged.world0
      [ConsoleLog (nl ++ rule); ConsoleLog "BUILDING MERKLE TREE"; ConsoleLog rule]
      = extend Tagged.world0 evs /\
    onlyLogs evs /\ combineCalls evs = 0 /\ digestCalls evs = 0.
Proof.
  split; [exact Tagged_hexDigests|]. split; [reflexivity|]. split; [reflexivity|].
  split; [reflexivity|].
  apply (empty_input_and_failure_before_combining (E := Tagged.ethers)
           (leafObject ["0xaa"; "0xbb"] (VNumber 5)) VUndefined (VString "sha256")
           Tagged.world0 _ TypeError);
    [exact Tagged_hexDigests | reflexivity | reflexivity | reflexivity].
Defined.

(** C8 fails on a hash that is not a hex string: with ['zz'] in third
    place, the first pair is concatenated and hashed, and the run then
    throws inside [combineHashes] at the second call of [concat]. *)
Lemma malformed_hash_counterexample :
  resultOf (Strict.buildMerkleRoot (E := Tagged.ethers)
              (VArray ["0xaa"; "0xbb"; "zz"; "0xcc"]) VUndefined) Tagged.world0
    = Throw TypeError /\
  filter (fun e => negb (isConsoleLog e))
         (trace (snd (Strict.buildMerkleRoot (E := Tagged.ethers)
                        (VArray ["0xaa"; "0xbb"; "zz"; "0xcc"]) VUndefined
                        Tagged.world0)))
    = [CallConcat ["0xaa"; "0xbb"]; CallKeccak256 (HexString "0xaabb");
       CallConcat ["0xcc"; "zz"]] /\
  digestCalls (trace (snd (Strict.buildMerkleRoot (E := Tagged.ethers)
                             (VArray ["0xaa"; "0xbb"; "zz"; "0xcc"]) VUndefined
                             Tagged.world0)))
    = 1.
Proof. repeat split; vm_compute; reflexivity. Qed.

Lemma root_is_a_combination_witness :
  2 <= List.length ["0xaa"; "0xbb"; "0xcc"] /\ "sha256" <> "" /\
  exists x y evs,
    whileLoop (E := Tagged.ethers) ["0xaa"; "0xbb"; "0xcc"] 1 (VString "sha256")
              Tagged.world0
    = whileLoop [x; y] (Nat.log2_up (List.length ["0xaa"; "0xbb"; "0xcc"]))
                (VString "sha256") (extend Tagged.world0 evs) /\
    forall w0 w1,
      resultOf (buildMerkleRoot (E := Tagged.ethers)
                  (leafObject ["0xaa"; "0xbb"; "0xcc"] (VString "sha256")) VUndefined) w0
      = resultOf (bind (combineHashes x y (VString "sha256"))
                       (fun r => ret (VString r))) w1.
Proof.
  split; [cbn; lia|]. split; [discriminate|].
  apply (root_is_a_combination (E := Tagged.ethers)
           ["0xaa"; "0xbb"; "0xcc"] "sha256" VUndefined Tagged.world0);
    [cbn; lia | discriminate].
Defined.

Lemma returns_only_on_nonempty_array_and_string_algorithm_witness :
  Strict.hexDigests (E := Tagged.ethers) /\
  Strict.wellFormedInput (VArray ["0xaa"; "0xbb"]) = true /\
  ["0xaa"; "0xbb"] <> [] /\
  carriesLeaves (VArray ["0xaa"; "0xbb"]) = false /\
  orElse VNull (VString "keccak256") = VString "keccak256" /\
  exists d,
    resultOf (Strict.buildMerkleRoot (E := Tagged.ethers) (VArray ["0xaa"; "0xbb"]) VNull)
             Tagged.world0 = Ok (VString d).
Proof.
  split; [exact Tagged_hexDigests|]. split; [reflexivity|]. split; [discriminate|].
  split; [reflexivity|]. split; [reflexivity|].
  apply (proj2 (returns_only_on_nonempty_array_and_string_algorithm (E := Tagged.ethers)
                  (VArray ["0xaa"; "0xbb"]) VNull Tagged.world0)
               Tagged_hexDigests eq_refl).
  exists ["0xaa"; "0xbb"], "keccak256". split; [discriminate|].
  right. repeat split.
Defined.

Lemma report_opens_with_input_and_closes_with_root_witness :
  ["0xaa"; "0xbb"] <> [] /\ "sha256" <> "" /\ asciiText "sha256" = true /\
  exists root body,
    buildMerkleRoot (E := Tagged.ethers)
      (leafObject ["0xaa"; "0xbb"] (VString "sha256")) VUndefined Tagged.world0
    = (Ok (VString root),
       extend Tagged.world0
         ([ConsoleLog (nl ++ rule);
           ConsoleLog "BUILDING MERKLE TREE";
           ConsoleLog rule;
           ConsoleLog ("Algorithm: " ++ toUpperCase "sha256");
           ConsoleLog ("Total leaves: " ++ showZ (Z.of_nat (List.length ["0xaa"; "0xbb"])));
           ConsoleLog (rule ++ nl);
           ConsoleLog "LEVEL 0 (Leaves):"]
          ++ body
          ++ [ConsoleLog rule;
              ConsoleLog "MERKLE ROOT (Final):";
              ConsoleLog root;
              ConsoleLog (rule ++ nl)])).
Proof.
  split; [discriminate|]. split; [discriminate|]. split; [reflexivity|].
  apply (report_opens_with_input_and_closes_with_root (E := Tagged.ethers));
    [discriminate | discriminate | reflexivity].
Defined.
